(** * restclient: pool resolution, response cache, stale fallback and mocks

    A shallow embedding of the Go package [restclient] (the HTTP client of
    astropay/go-tools) and the properties of its request executor.

    Conventions of the embedding:
    - a Go [string] is a [string] of bytes; a Go [int], [int64] and
      [time.Duration] is a [Z] with the 64-bit wrap-around written out
      ([wrap64]);
    - a Go [map] is a [gmap]; a [nil] map or pointer is [None];
    - [for ... := range m] over a map visits the entries in an order the
      language leaves unspecified: every loop over a map takes the order of
      the visit as an argument, and a theorem about it quantifies over all
      orders that enumerate the map ([range_of]);
    - a run-time panic is the outcome [Panic];
    - what the world decides (the clock, the answer of the network) is an
      argument of the call. *)

From Stdlib Require Import ZArith Ascii String.
From stdpp Require Import base option list strings gmap fin_maps.

Local Open Scope string_scope.
Local Open Scope list_scope.
Local Open Scope Z_scope.

(** ** Outcomes: a value, or a run-time panic *)

Inductive outcome (A : Type) : Type :=
| Ok (a : A)
| Panic.
Arguments Ok {A} a.
Arguments Panic {A}.

#[global] Instance outcome_ret : MRet outcome := fun _ a => Ok a.

#[global] Instance outcome_bind : MBind outcome := fun _ _ f x =>
  match x with
  | Ok a => f a
  | Panic => Panic
  end.

(** ** Machine integers *)

Definition wrap64 (z : Z) : Z := (z + 2 ^ 63) mod 2 ^ 64 - 2 ^ 63.
Definition MaxInt64 : Z := 2 ^ 63 - 1.
Definition MinInt64 : Z := - 2 ^ 63.

(** ** The functions of package [strings] and [strconv] that the client calls

    These belong to Go's library, not to the repository; they are written out
    here so that the code that calls them can run. *)

Module strings.

Fixpoint HasPrefix (s prefix : string) : bool :=
  match prefix, s with
  | EmptyString, _ => true
  | String _ _, EmptyString => false
  | String p prefix', String c s' =>
      if Ascii.eqb c p then HasPrefix s' prefix' else false
  end.

(** [strings.Contains s substr]: [substr] occurs within [s]. *)
Fixpoint Contains (s substr : string) : bool :=
  if HasPrefix s substr then true
  else match s with
       | EmptyString => false
       | String _ s' => Contains s' substr
       end.

Definition lower_byte (c : ascii) : ascii :=
  let n := N_of_ascii c in
  if ((65 <=? n) && (n <=? 90))%N then ascii_of_N (n + 32) else c.

(** [strings.ToLower] on the bytes [A]..[Z]; every other byte is kept.
    (Go also maps letters outside ASCII; none of them maps to a byte of
    the word the client looks for.) *)
Fixpoint ToLower (s : string) : string :=
  match s with
  | EmptyString => EmptyString
  | String c s' => String (lower_byte c) (ToLower s')
  end.

(** [strings.Split s sep] for a separator of one byte: the pieces of [s]
    between the occurrences of [sep]; always at least one piece. *)
Fixpoint Split (s : string) (sep : ascii) : list string :=
  match s with
  | EmptyString => [EmptyString]
  | String c s' =>
      if Ascii.eqb c sep then EmptyString :: Split s' sep
      else match Split s' sep with
           | piece :: pieces => String c piece :: pieces
           | [] => [String c EmptyString]
           end
  end.

End strings.

Module strconv.

Definition digit (c : ascii) : option Z :=
  let n := N_of_ascii c in
  if ((48 <=? n) && (n <=? 57))%N then Some (Z.of_N n - 48) else None.

(** The decimal value of a string of digits read left to right with [acc]
    already read; [None] when a byte is not a digit. *)
Fixpoint digits (acc : Z) (s : string) : option Z :=
  match s with
  | EmptyString => Some acc
  | String c s' =>
      match digit c with
      | Some d => digits (acc * 10 + d) s'
      | None => None
      end
  end.

(** [strconv.Atoi] on a 64-bit platform: the value and whether an error is
    returned.  An optional sign, then one or more decimal digits; a syntax
    error gives 0, a value out of range gives the nearest bound, both
    with an error. *)
Definition Atoi (s : string) : Z * bool :=
  let '(neg, body) :=
    match s with
    | String "-" s' => (true, s')
    | String "+" s' => (false, s')
    | _ => (false, s)
    end in
  match body with
  | EmptyString => (0, true)
  | _ =>
      match digits 0 body with
      | None => (0, true)
      | Some v =>
          let n := if neg then - v else v in
          if n >? MaxInt64 then (MaxInt64, true)
          else if n <? MinInt64 then (MinInt64, true)
          else (n, false)
      end
  end.

End strconv.

(** ** The bounded cache of package [golang-lru]

    The library is not part of the repository.  A cache of capacity
    [capacity] keeps its entries most recently used first; [Add] and [Get]
    move the key to the front, [Contains] and [Peek] do not, and an [Add] of
    a new key beyond the capacity drops the entry at the back.  [New] gives
    no cache for a size that is not positive. *)

Module lru.
Section Cache.
Context {V : Type}.

Record Cache : Type := { capacity : positive; items : list (string * V) }.

Definition New (n : Z) : option Cache :=
  match n with
  | Zpos size => Some {| capacity := size; items := [] |}
  | _ => None
  end.

Fixpoint find (l : list (string * V)) (key : string) : option V :=
  match l with
  | [] => None
  | (k, v) :: l' => if String.eqb k key then Some v else find l' key
  end.

Fixpoint remove (l : list (string * V)) (key : string) : list (string * V) :=
  match l with
  | [] => []
  | (k, v) :: l' => if String.eqb k key then remove l' key else (k, v) :: remove l' key
  end.

Definition Peek (c : Cache) (key : string) : option V := find (items c) key.

Definition Contains (c : Cache) (key : string) : bool :=
  match Peek c key with Some _ => true | None => false end.

Definition Get (c : Cache) (key : string) : option V * Cache :=
  match Peek c key with
  | Some v => (Some v, {| capacity := capacity c; items := (key, v) :: remove (items c) key |})
  | None => (None, c)
  end.

Definition Add (c : Cache) (key : string) (v : V) : Cache :=
  match Peek c key with
  | Some _ => {| capacity := capacity c; items := (key, v) :: remove (items c) key |}
  | None =>
      let items' := (key, v) :: items c in
      {| capacity := capacity c;
         items := if (Pos.to_nat (capacity c) <? length items')%nat
                    then removelast items' else items' |}
  end.
End Cache.
Arguments Cache V : clear implicits.
End lru.

(** ** Data model *)

Record Response : Type := {
  Body : string;
  Code : Z;
  Headers : option (gmap string (list string));
  CachedContent : bool;
  Staled : bool
}.

(** What [AddCustomPool] and [initDefaultPool] set on the [http.Client] and
    its transport.  [CheckRedirect] is the same function on every client
    (it returns the sentinel [notFollowRedirectError]) and is not a field. *)
Record httpClient : Type := {
  MaxIdleConnsPerHost : Z;
  DisableCompression : bool;
  DisableKeepAlives : bool;
  transportProxy : option string;
  clientTimeout : Z
}.

Record cacheElement : Type := {
  Content : string;
  elementHeaders : option (gmap string (list string));
  Expires : Z
}.

Record rClient : Type := {
  client : httpClient;
  baseURL : string;
  cache : option (lru.Cache cacheElement);
  stale : bool
}.

Record PoolConfig : Type := {
  BaseURL : string;
  configMaxIdleConnsPerHost : Z;
  Timeout : Z;
  Proxy : string;
  CacheElements : Z;
  CacheState : bool
}.

Record Header : Type := { Key : string; Value : string }.

Record mockResponse : Type := {
  mockURL : string;
  mockMethod : string;
  mockResponseValue : Response;
  mockHeaders : option (gmap string string);
  mockBody : string
}.

(** The package-level variables [pools], [mocks] and [useMock].  A pool is
    allocated by one registration and stored under one key, so the key stands
    for the pointer. *)
Record registry : Type := {
  pools : gmap string rClient;
  mocks : list mockResponse;
  useMock : bool
}.

Definition with_pools (st : registry) (ps : gmap string rClient) : registry :=
  {| pools := ps; mocks := mocks st; useMock := useMock st |}.

Definition with_mocks (st : registry) (ms : list mockResponse) : registry :=
  {| pools := pools st; mocks := ms; useMock := useMock st |}.

Definition with_cache (rclient : rClient) (c : lru.Cache cacheElement) : rClient :=
  {| client := client rclient; baseURL := baseURL rclient; cache := Some c; stale := stale rclient |}.

(** Constants of the package and of [net/http] and [time]. *)
Definition DefaultMaxIdleConnectionsPerHost : Z := 100.
Definition http_DefaultMaxIdleConnsPerHost : Z := 2.
Definition StatusOK : Z := 200.
Definition MethodGet : string := "GET".
Definition MethodPost : string := "POST".
Definition MethodPut : string := "PUT".
Definition MethodDelete : string := "DELETE".
Definition MethodHead : string := "HEAD".
Definition MethodOptions : string := "OPTIONS".
Definition Millisecond : Z := 1000000.
Definition Second : Z := 1000000000.

(** ** What the world answers *)

Inductive error : Type :=
| NewRequestError                  (* [http.NewRequest] rejected the URL *)
| TransportError (msg : string)    (* [client.Do] failed: no connection, timeout, ... *)
| ReadError (msg : string).        (* [ioutil.ReadAll] failed on the body *)

(** The statuses on which [net/http] consults [CheckRedirect]. *)
Inductive redirect_status : Type :=
| MovedPermanently | Found | SeeOther | TemporaryRedirect | PermanentRedirect.

Definition StatusCode_of (s : redirect_status) : Z :=
  match s with
  | MovedPermanently => 301
  | Found => 302
  | SeeOther => 303
  | TemporaryRedirect => 307
  | PermanentRedirect => 308
  end.

Inductive body_read : Type :=
| ReadAll (bytes : string)
| ReadFails (msg : string).

(** The three ways [client.Do] comes back: a response and no error; the
    redirect response together with a [*url.Error] that wraps the sentinel of
    [CheckRedirect]; no response and any other error. *)
Inductive reply : Type :=
| Answered (StatusCode : Z) (header : gmap string (list string)) (body : body_read)
| Redirected (status : redirect_status) (header : gmap string (list string))
| Failed (msg : string).

(** The request handed to [client.Do]; [requestHeaders] is the map given to
    [setHeaders]. *)
Record request : Type := {
  requestMethod : string;
  requestURL : string;
  requestBody : option string;
  requestHeaders : option (gmap string string)
}.

(** What one call reads from the world: the order in which [range pools]
    visits the registry, the clock at the cache lookup and at the cache
    admission, and the answer of the network to the request. *)
Record world : Type := {
  range_pools : list (string * rClient);
  clock_lookup : Z;
  clock_store : Z;
  answer : reply
}.

(** [order] is a visit of the map [m] by [range]: every entry once. *)
Definition range_of {V : Type} (m : gmap string V) (order : list (string * V)) : Prop :=
  order ≡ₚ map_to_list m.

(** ** The operations of the package *)

(** What the package takes from Go's library without the repository
    deciding it.  [MatchString pattern url] is
    [regexp.MustCompile(pattern).MatchString(url)], [None] when the pattern
    does not compile ([MustCompile] panics); [NewRequest_ok method url] tells
    whether [http.NewRequest] accepts the method and the URL. *)
Class GoLibrary : Type := {
  MatchString : string -> string -> option bool;
  NewRequest_ok : string -> string -> bool
}.

Section restclient.

Context {go : GoLibrary}.

Definition defaultTransport : httpClient :=
  {| MaxIdleConnsPerHost := 0;
     DisableCompression := false;
     DisableKeepAlives := false;
     transportProxy := None;
     clientTimeout := 0 |}.

Definition AddCustomPool (pattern : string) (config : PoolConfig) (st : registry) : registry :=
  let transport := defaultTransport in
  let maxIdle :=
    if configMaxIdleConnsPerHost config >? 0 then configMaxIdleConnsPerHost config
    else http_DefaultMaxIdleConnsPerHost in
  let proxy :=
    if String.eqb (Proxy config) "" then transportProxy transport
    else Some (Proxy config) in
  let timeout :=
    if Timeout config =? 0 then clientTimeout transport
    else wrap64 (Timeout config * Millisecond) in
  let withCache := CacheElements config >? 0 in
  let rclient :=
    {| client :=
         {| MaxIdleConnsPerHost := maxIdle;
            DisableCompression := DisableCompression transport;
            DisableKeepAlives := DisableKeepAlives transport;
            transportProxy := proxy;
            clientTimeout := timeout |};
       baseURL := BaseURL config;
       cache := if withCache then lru.New (CacheElements config) else None;
       stale := if withCache then CacheState config else false |} in
  with_pools st (<[pattern := rclient]> (pools st)).

(** The pool that [initDefaultPool] allocates. *)
Definition default_rClient : rClient :=
  {| client :=
       {| MaxIdleConnsPerHost := DefaultMaxIdleConnectionsPerHost;
          DisableCompression := DisableCompression defaultTransport;
          DisableKeepAlives := DisableKeepAlives defaultTransport;
          transportProxy := transportProxy defaultTransport;
          clientTimeout := clientTimeout defaultTransport |};
     baseURL := "";
     cache := None;
     stale := false |}.

Definition initDefaultPool (ps : gmap string rClient) : rClient * gmap string rClient :=
  (default_rClient, <["default" := default_rClient]> ps).

(** The loop of [getPool] over the entries in the order [range] visits
    them: the key and pool of the first entry whose pattern matches. *)
Fixpoint getPool_range (order : list (string * rClient)) (callURL : string)
  : outcome (option (string * rClient)) :=
  match order with
  | [] => Ok None
  | (pattern, pool) :: rest =>
      match MatchString pattern callURL with
      | None => Panic
      | Some true => Ok (Some (pattern, pool))
      | Some false => getPool_range rest callURL
      end
  end.

(** [getPool]: the key under which the returned pool is stored, the pool,
    and the registry afterwards. *)
Definition getPool (order : list (string * rClient)) (ps : gmap string rClient)
    (callURL : string) : outcome (string * rClient * gmap string rClient) :=
  found ← getPool_range order callURL;
  match found with
  | Some (pattern, pool) => Ok (pattern, pool, ps)
  | None =>
      match ps !! "default" with
      | Some pool => Ok ("default", pool, ps)
      | None => let '(pool, ps') := initDefaultPool ps in Ok ("default", pool, ps')
      end
  end.

Definition getHeadersMap (headers : list Header) : option (gmap string string) :=
  Some (fold_left (fun headersMap header => <[Key header := Value header]> headersMap)
                  headers ∅).

(** The loop of [sameHeaders] over the entries of [h1]. *)
Fixpoint sameHeaders_range (order : list (string * string)) (h2 : gmap string string) : bool :=
  match order with
  | [] => true
  | (key, value) :: rest =>
      match h2 !! key with
      | None => false
      | Some val => if String.eqb val value then sameHeaders_range rest h2 else false
      end
  end.

Definition sameHeaders_in (order : list (string * string))
    (h1 h2 : option (gmap string string)) : bool :=
  match h1, h2 with
  | None, None => true
  | None, Some _ | Some _, None => false
  | Some m1, Some m2 =>
      if (size m1 =? size m2)%nat then sameHeaders_range order m2 else false
  end.

(** The result of [sameHeaders] does not depend on the order of the visit
    ([sameHeaders_in_order] below), so it is computed on one of them. *)
Definition sameHeaders (h1 h2 : option (gmap string string)) : bool :=
  sameHeaders_in (match h1 with Some m1 => map_to_list m1 | None => [] end) h1 h2.

Definition AddMock (URL method body : string) (response : Response)
    (headers : list Header) (st : registry) : registry :=
  let mResponse :=
    {| mockURL := URL;
       mockMethod := method;
       mockResponseValue := response;
       mockHeaders := getHeadersMap headers;
       mockBody := body |} in
  with_mocks st (match mocks st with
                 | [] => [mResponse]
                 | _ => mocks st ++ [mResponse]
                 end).

(** [AddMocks] registers the entries in the order [range] visits the map. *)
Definition AddMocks (order : list (string * Response)) (st : registry) : registry :=
  fold_left (fun st' kv => AddMock kv.1 MethodGet "" kv.2 [] st') order st.

Definition CleanMocks (st : registry) : registry := with_mocks st [].

Definition DisableMock (st : registry) : registry :=
  {| pools := pools st; mocks := mocks st; useMock := false |}.

(** The condition of the loop of [searchMockCall]. *)
Definition mock_matches (mock : mockResponse) (method callURL : string)
    (headers : option (gmap string string)) (body : string) : bool :=
  String.eqb (mockURL mock) callURL && String.eqb (mockMethod mock) method
  && sameHeaders headers (mockHeaders mock) && String.eqb body (mockBody mock).

Fixpoint searchMock (ms : list mockResponse) (method callURL : string)
    (headers : option (gmap string string)) (body : string) : option mockResponse :=
  match ms with
  | [] => None
  | mock :: rest =>
      if mock_matches mock method callURL headers body then Some mock
      else searchMock rest method callURL headers body
  end.

Definition searchMockCall (ms : list mockResponse) (method callURL : string)
    (headers : option (gmap string string)) (body : string) : option Response :=
  mockResponseValue <$> searchMock ms method callURL headers body.

(** The loop of [getMaxAge]: [values] is what is left to visit,
    [cacheControlValues] the whole slice. *)
Fixpoint getMaxAge_range (cacheControlValues values : list string) : outcome (Z * bool) :=
  match values with
  | [] => Ok (0, false)
  | value :: rest =>
      if strings.Contains (strings.ToLower value) "max-age" then
        match cacheControlValues with
        | [] => Panic
        | first :: _ =>
            match strings.Split first "=" with
            | _ :: number :: _ => Ok (strconv.Atoi number)
            | _ => Panic
            end
        end
      else getMaxAge_range cacheControlValues rest
  end.

Definition getMaxAge (cacheControlValues : list string) : outcome (Z * bool) :=
  getMaxAge_range cacheControlValues cacheControlValues.

Definition getResponseFromCache (now : Z) (rclient : rClient) (callURL : string)
  : outcome (option Response * rClient) :=
  match cache rclient with
  | None => Panic
  | Some c =>
      if lru.Contains c callURL then
        let '(element, c') := lru.Get c callURL in
        match element with
        | None => Panic
        | Some cacheElement =>
            let rclient' := with_cache rclient c' in
            if now <? Expires cacheElement then
              Ok (Some {| Body := Content cacheElement; Code := 200;
                          Headers := elementHeaders cacheElement;
                          CachedContent := true; Staled := false |}, rclient')
            else if stale rclient then
              Ok (Some {| Body := Content cacheElement; Code := 200;
                          Headers := elementHeaders cacheElement;
                          CachedContent := true; Staled := true |}, rclient')
            else Ok (None, rclient')
        end
      else Ok (None, rclient)
  end.

(** The entry that [setResponseInCache] builds. *)
Definition new_cacheElement (now : Z) (response : Response) (cacheControlValue : Z)
  : cacheElement :=
  {| Content := Body response;
     elementHeaders := Headers response;
     Expires := now + wrap64 (Second * cacheControlValue) |}.

Definition setResponseInCache (now : Z) (rclient : rClient) (response : Response)
    (callURL : string) : outcome rClient :=
  match Headers response ≫= (fun h => h !! "Cache-Control") with
  | None => Ok rclient
  | Some cacheControl =>
      '(cacheControlValue, _) ← getMaxAge cacheControl;
      if cacheControlValue >? 0 then
        match cache rclient with
        | None => Panic
        | Some c =>
            Ok (with_cache rclient
                  (lru.Add c callURL (new_cacheElement now response cacheControlValue)))
        end
      else Ok rclient
  end.

(** *** [performRequest]

    The function is cut at its call of [client.Do]: [prepare] is the part
    before the call, [receive] and [complete] the part after it. *)

(** What [performRequest] returns: the response pointer and the error. *)
Definition result : Type := option Response * option error.

(** The local variables alive across [client.Do]. *)
Record pending : Type := {
  poolKey : string;
  pendingClient : rClient;
  resolvedURL : string;
  withCache : bool;
  cachedResponse : option Response;
  outgoing : request
}.

Definition has_cache (rclient : rClient) : bool :=
  match cache rclient with Some _ => true | None => false end.

(** Lines 205-208: the pool, and the call URL with the base URL of the
    pool in front unless it already contains it. *)
Definition resolveURL (rclient : rClient) (callURL : string) : string :=
  if negb (String.eqb (baseURL rclient) "")
     && negb (strings.Contains callURL (baseURL rclient))
  then (baseURL rclient ++ callURL)%string
  else callURL.

(** Lines 231-246: [http.NewRequest], [None] when it returns an error.
    ([setHeaders] only writes the header of the request; the request keeps
    the map it is given.) *)
Definition NewRequest (method callURL body : string)
    (headers : option (gmap string string)) : option request :=
  if NewRequest_ok method callURL then
    Some {| requestMethod := method; requestURL := callURL;
            requestBody :=
              if String.eqb method MethodPost || String.eqb method MethodPut
              then Some body else None;
            requestHeaders := headers |}
  else None.

(** Lines 205-246.  [inl]: the call returns before the network; [inr]: the
    request is handed to [client.Do]. *)
Definition prepare (order : list (string * rClient)) (now : Z) (st : registry)
    (method callURL body : string) (headers : option (gmap string string))
  : outcome (registry * (result + pending)) :=
  '(key, rclient, ps) ← getPool order (pools st) callURL;
  let st := with_pools st ps in
  let callURL := resolveURL rclient callURL in
  match (if useMock st then searchMockCall (mocks st) method callURL headers body
         else None) with
  | Some r => Ok (st, inl (Some r, None))
  | None =>
      let withCache := String.eqb method MethodGet && has_cache rclient in
      '(cachedResponse, rclient, st) ←
        (if withCache then
           '(cachedResponse, rclient') ← getResponseFromCache now rclient callURL;
           Ok (cachedResponse, rclient', with_pools st (<[key := rclient']> (pools st)))
         else Ok (None, rclient, st));
      if match cachedResponse with Some r => negb (Staled r) | None => false end then
        Ok (st, inl (cachedResponse, None))
      else
        match NewRequest method callURL body headers with
        | None => Ok (st, inl (None, Some NewRequestError))
        | Some req =>
            Ok (st, inr {| poolKey := key; pendingClient := rclient;
                           resolvedURL := callURL; withCache := withCache;
                           cachedResponse := cachedResponse; outgoing := req |})
        end
  end.

(** Lines 256-287: the response object built from what [client.Do] and
    [ioutil.ReadAll] gave, and the error kept. *)
Definition receive (r : reply) : Response * option error :=
  match r with
  | Failed msg =>
      ({| Body := ""; Code := 0; Headers := None; CachedContent := false; Staled := false |},
       Some (TransportError msg))
  | Redirected status header =>
      ({| Body := ""; Code := StatusCode_of status; Headers := Some header;
          CachedContent := false; Staled := false |}, None)
  | Answered StatusCode header (ReadFails msg) =>
      ({| Body := ""; Code := StatusCode; Headers := None;
          CachedContent := false; Staled := false |}, Some (ReadError msg))
  | Answered StatusCode header (ReadAll byteBody) =>
      ({| Body := byteBody; Code := StatusCode; Headers := Some header;
          CachedContent := false; Staled := false |}, None)
  end.

(** Lines 289-302. *)
Definition complete (now : Z) (st : registry) (p : pending) (r : reply)
  : outcome (registry * result) :=
  let '(rcResponse, error) := receive r in
  if withCache p then
    if Code rcResponse =? StatusOK then
      rclient' ← setResponseInCache now (pendingClient p) rcResponse (resolvedURL p);
      Ok (with_pools st (<[poolKey p := rclient']> (pools st)), (Some rcResponse, error))
    else if stale (pendingClient p) && bool_decide (is_Some (cachedResponse p)) then
      Ok (st, (cachedResponse p, None))
    else Ok (st, (Some rcResponse, error))
  else Ok (st, (Some rcResponse, error)).

(** One call: the registry afterwards, what the call returns, and the
    request that went to the network, if one did. *)
Definition performRequest (w : world) (st : registry)
    (method callURL body : string) (headers : option (gmap string string))
  : outcome (registry * result * option request) :=
  '(st1, stage) ← prepare (range_pools w) (clock_lookup w) st method callURL body headers;
  match stage with
  | inl res => Ok (st1, res, None)
  | inr p =>
      '(st2, res) ← complete (clock_store w) st1 p (answer w);
      Ok (st2, res, Some (outgoing p))
  end.

Definition Get (w : world) (st : registry) (callURL : string) (headers : list Header) :=
  performRequest w st MethodGet callURL "" (getHeadersMap headers).

Definition Post (w : world) (st : registry) (callURL body : string) (headers : list Header) :=
  performRequest w st MethodPost callURL body (getHeadersMap headers).

Definition Put (w : world) (st : registry) (callURL body : string) (headers : list Header) :=
  performRequest w st MethodPut callURL body (getHeadersMap headers).

Definition Delete (w : world) (st : registry) (callURL : string) (headers : list Header) :=
  performRequest w st MethodDelete callURL "" (getHeadersMap headers).

Definition Head (w : world) (st : registry) (callURL : string) (headers : list Header) :=
  performRequest w st MethodHead callURL "" (getHeadersMap headers).

Definition Options (w : world) (st : registry) (callURL : string) (headers : list Header) :=
  performRequest w st MethodOptions callURL "" (getHeadersMap headers).

End restclient.

(** ** Notions used to state the properties

    The first ones follow the words of the specification, to compare the
    code with; the last ones name the state of a call after its cache
    lookup. *)

Section specification.

Context {go : GoLibrary}.

(** A history of registrations, oldest first, applied to a registry. *)
Definition register_all (registrations : list (string * PoolConfig)) (st : registry) : registry :=
  fold_left (fun st' r => AddCustomPool r.1 r.2 st') registrations st.

(** "First pattern match wins in registration order": the first pattern of
    the history that matches the URL. *)
Fixpoint first_registered_match (registrations : list (string * PoolConfig))
    (callURL : string) : option string :=
  match registrations with
  | [] => None
  | (pattern, _) :: rest =>
      match MatchString pattern callURL with
      | Some true => Some pattern
      | _ => first_registered_match rest callURL
      end
  end.

(** "Mock mode is not active, or no fixture matches the call". *)
Definition not_mocked (st : registry) (method callURL : string)
    (headers : option (gmap string string)) (body : string) : Prop :=
  useMock st = false ∨ searchMockCall (mocks st) method callURL headers body = None.

(** A cache entry "marked served-from-cache", and served-stale or not. *)
Definition served (e : cacheElement) (staled : bool) : Response :=
  {| Body := Content e; Code := 200; Headers := elementHeaders e;
     CachedContent := true; Staled := staled |}.

(** The entry that step 3 looks up: the call is a GET, the pool has a cache,
    and the cache holds an entry for the resolved URL. *)
Definition cache_entry (rclient : rClient) (method callURL : string) : option cacheElement :=
  if String.eqb method MethodGet then c ← cache rclient; lru.Peek c callURL else None.

(** "An entry exists and is unexpired". *)
Definition fresh_entry (now : Z) (rclient : rClient) (method callURL : string)
  : option cacheElement :=
  match cache_entry rclient method callURL with
  | Some e => if now <? Expires e then Some e else None
  | None => None
  end.

(** "The Pool is configured for stale-serving, and a stale candidate was
    captured in step 3". *)
Definition stale_candidate (now : Z) (rclient : rClient) (method callURL : string)
  : option cacheElement :=
  match cache_entry rclient method callURL with
  | Some e => if (now <? Expires e) || negb (stale rclient) then None else Some e
  | None => None
  end.

(** Two states of a pool whose caches store the same entries under the same
    keys ("no admission change to the cache"). *)
Definition same_entries (rclient rclient' : rClient) : Prop :=
  match cache rclient, cache rclient' with
  | Some c, Some c' => ∀ key, lru.Peek c' key = lru.Peek c key
  | None, None => True
  | _, _ => False
  end.

(** The largest number of seconds that [time.Second * time.Duration(n)]
    holds without wrapping around. *)
Definition MaxSeconds : Z := 9223372036.

(** The answers after which nothing is to be admitted: the call is not a
    GET, or the pool has no cache, or the status is not 200, or the response
    carries no Cache-Control header, or none of its values mentions max-age,
    or its first value mentions max-age and the number that follows the
    first "=" of that value is not positive (0 when it is not a number).
    A header whose first value does not mention max-age while a later one
    does is in none of these cases. *)
Inductive declined (method : string) (rclient : rClient) (r : Response) : Prop :=
| declined_method : method ≠ MethodGet → declined method rclient r
| declined_no_cache : cache rclient = None → declined method rclient r
| declined_status : Code r ≠ StatusOK → declined method rclient r
| declined_no_header :
    Headers r ≫= (fun h => h !! "Cache-Control") = None → declined method rclient r
| declined_no_directive values :
    Headers r ≫= (fun h => h !! "Cache-Control") = Some values →
    Forall (fun value => strings.Contains (strings.ToLower value) "max-age" = false) values →
    declined method rclient r
| declined_value value others before number more n err :
    Headers r ≫= (fun h => h !! "Cache-Control") = Some (value :: others) →
    strings.Contains (strings.ToLower value) "max-age" = true →
    strings.Split value "=" = before :: number :: more →
    strconv.Atoi number = (n, err) →
    n ≤ 0 →
    declined method rclient r.

(** The pool after the cache lookup of [getResponseFromCache]: a key that is
    present has become the most recently used. *)
Definition touched (rclient : rClient) (callURL : string) : rClient :=
  match cache rclient with
  | Some c => if lru.Contains c callURL then with_cache rclient (lru.Get c callURL).2
              else rclient
  | None => rclient
  end.

(** The registry and the local variables of a call that is not answered by
    the mock registry, once the cache has been looked up. *)
Definition registry_after_lookup (st : registry) (ps : gmap string rClient) (key : string)
    (rclient : rClient) (method callURL : string) : registry :=
  if String.eqb method MethodGet && has_cache rclient
  then with_pools (with_pools st ps) (<[key := touched rclient callURL]> ps)
  else with_pools st ps.

Definition pending_after_lookup (key : string) (rclient : rClient) (now : Z)
    (method callURL : string) (req : request) : pending :=
  let withCache := String.eqb method MethodGet && has_cache rclient in
  {| poolKey := key;
     pendingClient := if withCache then touched rclient callURL else rclient;
     resolvedURL := callURL;
     withCache := withCache;
     cachedResponse := (fun e => served e true) <$> stale_candidate now rclient method callURL;
     outgoing := req |}.

End specification.

(** ** Fixtures for the examples

    On a pattern without metacharacters Go's [regexp] finds the pattern as a
    substring of the URL; the examples register only such patterns and use
    URLs that [http.NewRequest] accepts. *)

#[local] Instance literal_go : GoLibrary :=
  {| MatchString := fun pattern callURL => Some (strings.Contains callURL pattern);
     NewRequest_ok := fun _ _ => true |}.

(** The package after [init] outside production: no pool, no fixture, mock
    mode active. *)
Definition no_registry : registry := {| pools := ∅; mocks := []; useMock := true |}.

Definition cachingConfig (staleServing : bool) : PoolConfig :=
  {| BaseURL := ""; configMaxIdleConnsPerHost := 20; Timeout := 0; Proxy := "";
     CacheElements := 100; CacheState := staleServing |}.

Definition example_headers (cacheControl : list string) : gmap string (list string) :=
  <["Cache-Control" := cacheControl]> ∅.

Definition example_world (order : list (string * rClient)) (lookup store : Z) (r : reply) : world :=
  {| range_pools := order; clock_lookup := lookup; clock_store := store; answer := r |}.

Definition usersConfig : PoolConfig :=
  {| BaseURL := "http://users.astropay.com"; configMaxIdleConnsPerHost := 0; Timeout := 0;
     Proxy := ""; CacheElements := 0; CacheState := false |}.

Definition cardsConfig : PoolConfig :=
  {| BaseURL := "http://cards.astropay.com"; configMaxIdleConnsPerHost := 0; Timeout := 0;
     Proxy := ""; CacheElements := 0; CacheState := false |}.

Definition two_registrations : list (string * PoolConfig) :=
  [("/users/", usersConfig); ("/cards/", cardsConfig)].

Definition two_pools : registry := register_all two_registrations no_registry.

(** The pool a registry holds under a key. *)
Definition pool_at (st : registry) (key : string) : rClient :=
  default default_rClient (pools st !! key).

Definition registry_after (run : outcome (registry * result * option request)) : registry :=
  match run with
  | Ok (st, _, _) => st
  | Panic => no_registry
  end.

Definition localhost : string := "http://localhost:8080".
Definition cacheURL : string := "http://localhost:8080/cache?seconds=1".

(** The answer of the test server to [/cache?seconds=1]. *)
Definition answer_max_age_1 : reply :=
  Answered 200 (example_headers ["max-age=1"]) (ReadAll "{id:123}").

(** A registry with one caching pool, and the same after a first GET at
    clock 0 that admitted an entry expiring one second later. *)
Definition caching_registry (staleServing : bool) : registry :=
  AddCustomPool localhost (cachingConfig staleServing) no_registry.

Definition cached_registry (staleServing : bool) : registry :=
  registry_after
    (Get (example_world (map_to_list (pools (caching_registry staleServing))) 0 0
            answer_max_age_1)
         (caching_registry staleServing) cacheURL []).

Definition cache_at (st : registry) (key : string) : lru.Cache cacheElement :=
  default {| lru.capacity := 1; lru.items := [] |} (cache (pool_at st key)).

Definition entry_at (st : registry) (key callURL : string) : cacheElement :=
  default {| Content := ""; elementHeaders := None; Expires := 0 |}
          (lru.Peek (cache_at st key) callURL).

(** A later call on a registry: the visit of the map, both clocks at
    [now], and the answer [r]. *)
Definition later_world (st : registry) (now : Z) (r : reply) : world :=
  example_world (map_to_list (pools st)) now now r.

(** Two seconds after the admission: the entry has expired. *)
Definition failing_world : world :=
  later_world (cached_registry true) 2000000000 (Answered 500 ∅ (ReadAll "{error}")).

Definition timeout_world (st : registry) : world :=
  later_world st 2000000000 (Failed "timeout").

Definition redirect_world (st : registry) : world :=
  later_world st 2000000000
    (Redirected Found (<["Location" := ["http://localhost:8080/moved"]]> ∅)).

(** Half a second after the admission: the entry is fresh. *)
Definition early_world : world :=
  later_world (cached_registry true) 500000000 (Failed "no network").

Definition storing_world : world :=
  later_world (caching_registry false) 7
    (Answered 200 (example_headers ["max-age=60"]) (ReadAll "{id:123}")).

Definition zero_max_age_world : world :=
  later_world (caching_registry false) 7
    (Answered 200 (example_headers ["max-age=0"]) (ReadAll "{id:123}")).

Definition more_directives_world : world :=
  later_world (caching_registry false) 7
    (Answered 200 (example_headers ["max-age=60, public"]) (ReadAll "{id:123}")).

Definition unreadable_world : world :=
  later_world (caching_registry false) 7
    (Answered 200 (example_headers ["max-age=60"]) (ReadFails "unexpected EOF")).

Definition pepe : Response :=
  {| Body := "{id:Pepe}"; Code := 200; Headers := None;
     CachedContent := false; Staled := false |}.

Definition pepe_again : Response :=
  {| Body := "{id:Pepe2}"; Code := 200; Headers := None;
     CachedContent := false; Staled := false |}.

(** A URL that both patterns of [two_registrations] match. *)
Definition users_cards_URL : string := "http://api/users/1/cards/7".

(** The pool of [cached_registry], with and without stale-serving. *)
Definition stale_serving_pool : rClient := pool_at (cached_registry true) localhost.
Definition plain_pool : rClient := pool_at (cached_registry false) localhost.



(** ** Further notions *)



(** Two states of a pool with the same configuration: the client, the base
    URL, the stale-serving flag, and the presence and capacity of the
    cache. *)
Definition same_config (rclient rclient' : rClient) : Prop :=
  client rclient' = client rclient
  ∧ baseURL rclient' = baseURL rclient
  ∧ stale rclient' = stale rclient
  ∧ lru.capacity <$> cache rclient' = lru.capacity <$> cache rclient.

(** ** [setHeaders] *)

Section request_header.

(** [textproto.CanonicalMIMEHeaderKey] of Go's library, through which
    [http.Header.Set] passes every key. *)
Variable CanonicalMIMEHeaderKey : string -> string.

(** [h.Set(key, value)] on an [http.Header]. *)
Definition Header_Set (h : gmap string (list string)) (key value : string)
  : gmap string (list string) :=
  <[CanonicalMIMEHeaderKey key := [value]]> h.

(** [setHeaders] on the header [requestHeader] of a request of method
    [method]; [order] is the visit of the map [headers] by [range]. *)
Definition setHeaders (order : list (string * string))
    (requestHeader : gmap string (list string)) (method : string)
    (headers : option (gmap string string)) : gmap string (list string) :=
  let h := Header_Set requestHeader "Accept" "application/json" in
  let h := Header_Set h "Connection" "Keep-Alive" in
  let h := if negb (String.eqb method MethodGet)
           then Header_Set h "Content-Type" "application/json" else h in
  match headers with
  | Some _ => fold_left (fun h' kv => Header_Set h' kv.1 kv.2) order h
  | None => h
  end.

End request_header.

(** ** Package [common]: [IsEmailAddress]

    The function compiles one fixed pattern and matches the string against
    it.  The pattern is written out as a syntax tree, and matching is
    matching of the whole string, since the pattern is enclosed in [^] and
    [$] (begin and end of text in Go's [regexp]); every class of the
    pattern holds ASCII bytes only, so matching bytes is matching runes. *)

Module regexp.

Inductive Regexp : Type :=
| NoMatch
| EmptyMatch
| CharClass (member : ascii -> bool)
| Concat (r1 r2 : Regexp)
| Alternate (r1 r2 : Regexp)
| Star (r : Regexp).

(** [r+] and [r{2,4}]. *)
Definition Plus (r : Regexp) : Regexp := Concat r (Star r).

Definition Repeat_2_4 (r : Regexp) : Regexp :=
  Concat r (Concat r (Alternate EmptyMatch (Concat r (Alternate EmptyMatch r)))).

(** The strings a pattern matches in full. *)
Inductive matches : Regexp -> string -> Prop :=
| matches_empty : matches EmptyMatch EmptyString
| matches_class member c : member c = true -> matches (CharClass member) (String c EmptyString)
| matches_concat r1 r2 s1 s2 :
    matches r1 s1 -> matches r2 s2 -> matches (Concat r1 r2) (s1 ++ s2)%string
| matches_left r1 r2 s : matches r1 s -> matches (Alternate r1 r2) s
| matches_right r1 r2 s : matches r2 s -> matches (Alternate r1 r2) s
| matches_star_nil r : matches (Star r) EmptyString
| matches_star_more r s1 s2 :
    matches r s1 -> matches (Star r) s2 -> matches (Star r) (s1 ++ s2)%string.

(** Matching by derivatives: the pattern left to match after each byte. *)
Fixpoint nullable (r : Regexp) : bool :=
  match r with
  | NoMatch => false
  | EmptyMatch => true
  | CharClass _ => false
  | Concat r1 r2 => nullable r1 && nullable r2
  | Alternate r1 r2 => nullable r1 || nullable r2
  | Star _ => true
  end.

Fixpoint derive (c : ascii) (r : Regexp) : Regexp :=
  match r with
  | NoMatch => NoMatch
  | EmptyMatch => NoMatch
  | CharClass member => if member c then EmptyMatch else NoMatch
  | Concat r1 r2 =>
      if nullable r1 then Alternate (Concat (derive c r1) r2) (derive c r2)
      else Concat (derive c r1) r2
  | Alternate r1 r2 => Alternate (derive c r1) (derive c r2)
  | Star r1 => Concat (derive c r1) (Star r1)
  end.

(** [MatchString] of a pattern enclosed in [^] and [$]. *)
Fixpoint MatchWhole (r : Regexp) (s : string) : bool :=
  match s with
  | EmptyString => nullable r
  | String c s' => MatchWhole (derive c r) s'
  end.

End regexp.

Module common.

Definition between (lo hi c : ascii) : bool :=
  ((N_of_ascii lo <=? N_of_ascii c) && (N_of_ascii c <=? N_of_ascii hi))%N.

(** The classes [[a-z0-9._%+\-]], [[a-z0-9.\-]] and [[a-z]]. *)
Definition local_byte (c : ascii) : bool :=
  between "a" "z" c || between "0" "9" c || Ascii.eqb c "." || Ascii.eqb c "_"
  || Ascii.eqb c "%" || Ascii.eqb c "+" || Ascii.eqb c "-".

Definition domain_byte (c : ascii) : bool :=
  between "a" "z" c || between "0" "9" c || Ascii.eqb c "." || Ascii.eqb c "-".

Definition lower_byte (c : ascii) : bool := between "a" "z" c.

(** The pattern [^[a-z0-9._%+\-]+@[a-z0-9.\-]+\.[a-z]{2,4}$], without its
    anchors. *)
Definition email_pattern : regexp.Regexp :=
  regexp.Concat (regexp.Plus (regexp.CharClass local_byte))
    (regexp.Concat (regexp.CharClass (Ascii.eqb "@"))
       (regexp.Concat (regexp.Plus (regexp.CharClass domain_byte))
          (regexp.Concat (regexp.CharClass (Ascii.eqb "."))
             (regexp.Repeat_2_4 (regexp.CharClass lower_byte))))).

Definition IsEmailAddress (str : string) : bool :=
  regexp.MatchWhole email_pattern str.

End common.

(** Every byte of a string is in a class. *)
Fixpoint all_bytes (member : ascii -> bool) (s : string) : bool :=
  match s with
  | EmptyString => true
  | String c s' => member c && all_bytes member s'
  end.

(** ** Fixtures for the further examples *)

Definition pepe_mocks : gmap string Response :=
  <["http://pepe.com" := pepe]> (<["http://pepa.com" := pepe_again]> ∅).

(** A library whose [http.NewRequest] rejects a URL with a space in it, as
    Go does for a space in the host. *)
Definition picky_go : GoLibrary :=
  {| MatchString := fun pattern callURL => Some (strings.Contains callURL pattern);
     NewRequest_ok := fun _ callURL => negb (strings.Contains callURL " ") |}.

(** The first call of the test of the cache: a GET at clock 0 answered with
    a max-age of one second. *)
Definition first_world (staleServing : bool) : world :=
  later_world (caching_registry staleServing) 0 answer_max_age_1.

Definition test_headers : gmap string string :=
  <["Accept" := "text/plain"]> (<["Test" := "Test Header"]> ∅).

(** What a run returned and what it sent. *)
Definition returned_by (run : outcome (registry * result * option request)) : result :=
  match run with
  | Ok (_, res, _) => res
  | Panic => (None, None)
  end.

Definition sent_by (run : outcome (registry * result * option request)) : option request :=
  match run with
  | Ok (_, _, sent) => sent
  | Panic => None
  end.

Definition first_run : outcome (registry * result * option request) :=
  performRequest (first_world false) (caching_registry false) MethodGet cacheURL ""
    (getHeadersMap []).

(** * Properties *)

(** ** The library functions on examples *)

Example Contains_max_age : strings.Contains (strings.ToLower "public, Max-Age=60") "max-age" = true.
Proof. reflexivity. Qed.

Example Split_two : strings.Split "a=b=c" "=" = ["a"; "b"; "c"].
Proof. reflexivity. Qed.

Example Split_none : strings.Split "no-cache" "=" = ["no-cache"].
Proof. reflexivity. Qed.

Example Atoi_60 : strconv.Atoi "60" = (60, false).
Proof. reflexivity. Qed.

Example Atoi_junk : strconv.Atoi "60, public" = (0, true).
Proof. reflexivity. Qed.

Example Atoi_huge : strconv.Atoi "99999999999999999999" = (MaxInt64, true).
Proof. reflexivity. Qed.

(** ** The cache library *)

Section lru_facts.

Context {V : Type}.
Implicit Types (c : lru.Cache V) (l : list (string * V)) (key : string).

Lemma find_remove_eq l key : lru.find (lru.remove l key) key = None.
Proof.
  induction l as [|[k v] l IH]; simpl; [done|].
  destruct (String.eqb k key) eqn:E; [done|]. simpl. by rewrite E.
Qed.

Lemma find_remove_ne l key key' :
  key ≠ key' → lru.find (lru.remove l key) key' = lru.find l key'.
Proof.
  intros Hne. induction l as [|[k v] l IH]; simpl; [done|].
  destruct (String.eqb k key) eqn:E.
  - apply String.eqb_eq in E. subst k.
    apply String.eqb_neq in Hne. by rewrite Hne.
  - simpl. by rewrite IH.
Qed.

Lemma Contains_Peek c key : lru.Contains c key = true ↔ is_Some (lru.Peek c key).
Proof.
  unfold lru.Contains. destruct (lru.Peek c key); split; intros H; try done.
Qed.

(** [Get] changes the recency of a key, never what is stored. *)
Lemma Peek_Get c key key' : lru.Peek (lru.Get c key).2 key' = lru.Peek c key'.
Proof.
  unfold lru.Get. destruct (lru.Peek c key) as [v|] eqn:E; [|done].
  unfold lru.Peek in *. simpl.
  destruct (String.eqb key key') eqn:E'.
  - apply String.eqb_eq in E'. by subst.
  - apply String.eqb_neq in E'. by apply find_remove_ne.
Qed.

Lemma Peek_Add_eq c key (v : V) : lru.Peek (lru.Add c key v) key = Some v.
Proof.
  assert (Hhead : ∀ l, lru.find ((key, v) :: l) key = Some v).
  { intros l. cbn [lru.find]. by rewrite String.eqb_refl. }
  unfold lru.Add. destruct (lru.Peek c key) as [v0|] eqn:E; unfold lru.Peek;
    cbn [lru.items]; [apply Hhead|].
  destruct (Pos.to_nat (lru.capacity c) <? length ((key, v) :: lru.items c))%nat eqn:Hc;
    [|apply Hhead].
  destruct (lru.items c) as [|kv l]; [|apply Hhead].
  apply Nat.ltb_lt in Hc. simpl in Hc. lia.
Qed.

End lru_facts.

(** ** Pool resolution *)

Section resolution.

Context {go : GoLibrary}.
Implicit Types (ps : gmap string rClient) (order : list (string * rClient)).

Lemma range_of_lookup {V : Type} (m : gmap string V) (order : list (string * V)) k v :
  range_of m order → ((k, v) ∈ order ↔ m !! k = Some v).
Proof. intros Hr. unfold range_of in Hr. rewrite Hr. apply elem_of_map_to_list. Qed.

Lemma getPool_range_miss order callURL :
  (∀ pattern pool, (pattern, pool) ∈ order → MatchString pattern callURL = Some false) →
  getPool_range order callURL = Ok None.
Proof.
  induction order as [|[pattern pool] order IH]; intros Hall; simpl; [done|].
  rewrite (Hall pattern pool) by apply list_elem_of_here.
  apply IH. intros p q Hin. apply (Hall p q). by apply list_elem_of_further.
Qed.

Lemma getPool_range_total order callURL :
  (∀ pattern pool, (pattern, pool) ∈ order → is_Some (MatchString pattern callURL)) →
  (∃ pattern pool, getPool_range order callURL = Ok (Some (pattern, pool))
                   ∧ (pattern, pool) ∈ order ∧ MatchString pattern callURL = Some true)
  ∨ (getPool_range order callURL = Ok None
     ∧ ∀ pattern pool, (pattern, pool) ∈ order → MatchString pattern callURL = Some false).
Proof.
  induction order as [|[pattern pool] order IH]; intros Hall; simpl.
  - right. split; [done|]. intros p q Hin. by apply elem_of_nil in Hin.
  - destruct (Hall pattern pool) as [b Hb]; [apply list_elem_of_here|].
    rewrite Hb. destruct b.
    + left. exists pattern, pool. split_and!; [done|apply list_elem_of_here|done].
    + destruct IH as [(p & q & Hr & Hin & Hm)|[Hr Hmiss]].
      * intros p q Hin. apply (Hall p q). by apply list_elem_of_further.
      * left. exists p, q. split_and!; [done|by apply list_elem_of_further|done].
      * right. split; [done|]. intros p q Hin.
        apply elem_of_cons in Hin as [[= -> ->]|Hin]; [done|by apply (Hmiss p q)].
Qed.

(** A visit that starts at a given entry of the registry. *)
Lemma range_of_first {V : Type} (m : gmap string V) k v :
  m !! k = Some v → range_of m ((k, v) :: map_to_list (delete k m)).
Proof.
  intros Hk. unfold range_of.
  rewrite <- (insert_delete_id m k v Hk) at 2.
  symmetry. apply map_to_list_insert, lookup_delete_eq.
Qed.

(** Once the registry holds an entry under the key "default", a call that
    no key matches returns that entry and leaves the registry as it is. *)
Lemma getPool_default_reused ps order callURL pool :
  range_of ps order →
  ps !! "default" = Some pool →
  (∀ pattern pool', ps !! pattern = Some pool' → MatchString pattern callURL = Some false) →
  getPool order ps callURL = Ok ("default", pool, ps).
Proof.
  intros Hr Hd Hmiss. unfold getPool.
  rewrite getPool_range_miss; simpl.
  - by rewrite Hd.
  - intros p q Hin. apply (Hmiss p q). by apply (range_of_lookup ps order).
Qed.

(** C1, as amended.  Whatever the order in which [range] visits a registry
    whose patterns all compile, [getPool] returns a pool stored in the
    registry under a key that matches the URL (any matching key: the map
    keeps no order of registration); when no key matches, it returns the
    pool stored under "default", creating it first (default transport, no
    base URL, no cache) when the key is absent, and every later call that
    no key matches gets that same pool from an unchanged registry. *)
Theorem getPool_resolves ps order callURL :
  range_of ps order →
  (∀ pattern pool, ps !! pattern = Some pool → is_Some (MatchString pattern callURL)) →
  ∃ key pool ps',
    getPool order ps callURL = Ok (key, pool, ps')
    ∧ ps' !! key = Some pool
    ∧ ((ps !! key = Some pool ∧ MatchString key callURL = Some true ∧ ps' = ps)
       ∨ ((∀ pattern pool', ps !! pattern = Some pool' →
                            MatchString pattern callURL = Some false)
          ∧ key = "default"
          ∧ ((ps !! "default" = Some pool ∧ ps' = ps)
             ∨ (ps !! "default" = None ∧ pool = default_rClient
                ∧ ps' = <["default" := default_rClient]> ps))
          ∧ ∀ order' callURL',
              range_of ps' order' →
              (∀ pattern pool', ps' !! pattern = Some pool' →
                                MatchString pattern callURL' = Some false) →
              getPool order' ps' callURL' = Ok ("default", pool, ps'))).
Proof.
  intros Hr Hcompile.
  destruct (getPool_range_total order callURL) as [(p & q & Hrun & Hin & Hm)|[Hrun Hmiss]].
  - intros p q Hin. apply (Hcompile p q). by apply (range_of_lookup ps order).
  - apply (range_of_lookup ps order) in Hin; [|done].
    exists p, q, ps. unfold getPool. rewrite Hrun. simpl.
    split_and!; [done|done|]. by left.
  - assert (Hmiss' : ∀ pattern pool', ps !! pattern = Some pool' →
                                      MatchString pattern callURL = Some false).
    { intros p q Hin. apply (Hmiss p q). by apply (range_of_lookup ps order). }
    unfold getPool. rewrite Hrun. simpl.
    destruct (ps !! "default") as [d|] eqn:Hd.
    + exists "default", d, ps. split_and!; [done|done|].
      right. split_and!; [done|done|by left|].
      intros order' callURL' Hr' Hmiss2. by apply getPool_default_reused.
    + exists "default", default_rClient, (<["default" := default_rClient]> ps).
      split_and!; [done|apply lookup_insert_eq|].
      right. split_and!; [done|done|by right|].
      intros order' callURL' Hr' Hmiss2.
      apply getPool_default_reused; [done|apply lookup_insert_eq|done].
Qed.



End resolution.

(** ** The mock registry *)

Section mock_registry.

Context {go : GoLibrary}.
Implicit Types (ms : list mockResponse) (h : option (gmap string string)).

Lemma sameHeaders_range_spec (order : list (string * string)) (m2 : gmap string string) :
  sameHeaders_range order m2 = true ↔ ∀ k v, (k, v) ∈ order → m2 !! k = Some v.
Proof.
  induction order as [|[key value] order IH]; simpl.
  - split; [|done]. intros _ k v Hin. by apply elem_of_nil in Hin.
  - destruct (m2 !! key) as [val|] eqn:E.
    + destruct (String.eqb_spec val value) as [->|Hne].
      * rewrite IH. split.
        -- intros H k v Hin. apply elem_of_cons in Hin as [[= -> ->]|Hin]; [done|by apply H].
        -- intros H k v Hin. apply H. by apply list_elem_of_further.
      * split; [done|]. intros H.
        specialize (H key value (list_elem_of_here _ _)). congruence.
    + split; [done|]. intros H.
      specialize (H key value (list_elem_of_here _ _)). congruence.
Qed.

(** Whatever the order of the visit, [sameHeaders] is equality of the two
    maps: the same keys with the same values. *)
Lemma sameHeaders_in_order (order : list (string * string)) h1 h2 :
  (∀ m1, h1 = Some m1 → range_of m1 order) →
  sameHeaders_in order h1 h2 = true ↔ h1 = h2.
Proof.
  intros Hr. destruct h1 as [m1|], h2 as [m2|]; simpl; try done.
  specialize (Hr m1 eq_refl).
  destruct (size m1 =? size m2)%nat eqn:Hsize.
  - apply Nat.eqb_eq in Hsize. rewrite sameHeaders_range_spec. split.
    + intros Hsub. f_equal. apply map_subseteq_size_eq.
      * apply map_subseteq_spec. intros k v Hk. apply Hsub.
        by apply (range_of_lookup m1 order).
      * by rewrite Hsize.
    + intros [= <-] k v Hin. by apply (range_of_lookup m1 order).
  - apply Nat.eqb_neq in Hsize. split; [done|]. intros [= <-]. done.
Qed.

Lemma sameHeaders_eq h1 h2 : sameHeaders h1 h2 = true ↔ h1 = h2.
Proof.
  unfold sameHeaders. apply sameHeaders_in_order.
  intros m1 ->. unfold range_of. reflexivity.
Qed.

Lemma mock_matches_eq (mock : mockResponse) method callURL h body :
  mock_matches mock method callURL h body = true
  ↔ mockURL mock = callURL ∧ mockMethod mock = method
    ∧ h = mockHeaders mock ∧ body = mockBody mock.
Proof.
  unfold mock_matches. rewrite !andb_true_iff, !String.eqb_eq, sameHeaders_eq.
  tauto.
Qed.

Lemma searchMock_app ms ms' method callURL h body :
  searchMock (ms ++ ms') method callURL h body
  = match searchMock ms method callURL h body with
    | Some mock => Some mock
    | None => searchMock ms' method callURL h body
    end.
Proof.
  induction ms as [|m ms IH]; simpl; [done|].
  by destruct (mock_matches m method callURL h body).
Qed.



Lemma AddMock_appends URL method body response headers (st : registry) :
  mocks (AddMock URL method body response headers st)
  = mocks st ++ [{| mockURL := URL; mockMethod := method; mockResponseValue := response;
                    mockHeaders := getHeadersMap headers; mockBody := body |}].
Proof. unfold AddMock. simpl. by destruct (mocks st). Qed.


End mock_registry.

(** ** The request executor *)

Section executor.

Context {go : GoLibrary}.
Implicit Types (st : registry) (rclient : rClient) (w : world).

Lemma wrap64_seconds n : 0 < n ≤ MaxSeconds → wrap64 (Second * n) = n * Second.
Proof.
  unfold wrap64, Second, MaxSeconds. intros Hn.
  replace (2 ^ 63) with 9223372036854775808 by reflexivity.
  replace (2 ^ 64) with 18446744073709551616 by reflexivity.
  rewrite Z.mod_small by lia. lia.
Qed.

Lemma getResponseFromCache_spec now rclient c callURL :
  cache rclient = Some c →
  getResponseFromCache now rclient callURL
  = Ok (match lru.Peek c callURL with
        | Some e => if now <? Expires e then Some (served e false)
                    else if stale rclient then Some (served e true) else None
        | None => None
        end, touched rclient callURL).
Proof.
  intros Hc. unfold getResponseFromCache, touched. rewrite Hc.
  unfold lru.Contains, lru.Get.
  destruct (lru.Peek c callURL) as [e|]; [|done].
  destruct (now <? Expires e); [done|]. by destruct (stale rclient).
Qed.

Lemma stale_touched rclient callURL : stale (touched rclient callURL) = stale rclient.
Proof.
  unfold touched. destruct (cache rclient) as [c|]; [|done].
  by destruct (lru.Contains c callURL).
Qed.

Lemma same_entries_touched rclient callURL : same_entries rclient (touched rclient callURL).
Proof.
  unfold same_entries, touched. destruct (cache rclient) as [c|] eqn:Hc; [|by rewrite Hc].
  destruct (lru.Contains c callURL); simpl; [|by rewrite Hc].
  intros key. apply Peek_Get.
Qed.

Lemma getPool_stored order (ps0 : gmap string rClient) callURL key rclient ps :
  range_of ps0 order →
  getPool order ps0 callURL = Ok (key, rclient, ps) →
  ps !! key = Some rclient.
Proof.
  intros Hr. unfold getPool.
  destruct (getPool_range order callURL) as [[[p q]|]|] eqn:Hrun; simpl; [| |done].
  - intros [= <- <- <-]. apply (range_of_lookup ps0 order); [done|].
    clear Hr. induction order as [|[p' q'] order IH]; simpl in Hrun; [done|].
    destruct (MatchString p' callURL) as [[]|]; [| |done].
    + injection Hrun as <- <-. apply list_elem_of_here.
    + apply list_elem_of_further. by apply IH.
  - destruct (ps0 !! "default") as [d|] eqn:Hd.
    + by intros [= <- <- <-].
    + intros [= <- <- <-]. apply lookup_insert_eq.
Qed.

Lemma not_mocked_lookup st method callURL headers body :
  not_mocked st method callURL headers body →
  (if useMock st then searchMockCall (mocks st) method callURL headers body else None) = None.
Proof. intros [->|H]; [done|]. by destruct (useMock st). Qed.

(** A call that the mock registry does not answer and that finds no fresh
    entry hands its request to the network. *)
Lemma prepare_network order now st method callURL body headers key rclient ps req :
  getPool order (pools st) callURL = Ok (key, rclient, ps) →
  not_mocked st method (resolveURL rclient callURL) headers body →
  fresh_entry now rclient method (resolveURL rclient callURL) = None →
  NewRequest method (resolveURL rclient callURL) body headers = Some req →
  prepare order now st method callURL body headers
  = Ok (registry_after_lookup st ps key rclient method (resolveURL rclient callURL),
        inr (pending_after_lookup key rclient now method (resolveURL rclient callURL) req)).
Proof.
  intros Hpool Hmock Hfresh Hreq. unfold prepare. rewrite Hpool. cbn [mbind outcome_bind].
  cbn [useMock mocks with_pools pools].
  rewrite (not_mocked_lookup _ _ _ _ _ Hmock).
  unfold registry_after_lookup, pending_after_lookup, fresh_entry, stale_candidate,
    cache_entry, has_cache in *.
  destruct (String.eqb method MethodGet) eqn:Hget; cbn [andb].
  - destruct (cache rclient) as [c|] eqn:Hc; cbn [mbind option_bind] in *.
    + rewrite (getResponseFromCache_spec _ _ c) by done. cbn [mbind outcome_bind].
      cbn [pools with_pools].
      destruct (lru.Peek c (resolveURL rclient callURL)) as [e|] eqn:He.
      * destruct (now <? Expires e) eqn:Hnow; [done|]. cbn [orb].
        destruct (stale rclient); cbn [negb served Staled fmap option_fmap option_map];
          by rewrite Hreq.
      * cbn. by rewrite Hreq.
    + cbn. by rewrite Hreq.
  - cbn. by rewrite Hreq.
Qed.

(** A call that the mock registry does not answer and that finds a fresh
    entry returns it at once. *)
Lemma prepare_fresh order now st method callURL body headers key rclient ps e :
  getPool order (pools st) callURL = Ok (key, rclient, ps) →
  not_mocked st method (resolveURL rclient callURL) headers body →
  fresh_entry now rclient method (resolveURL rclient callURL) = Some e →
  prepare order now st method callURL body headers
  = Ok (registry_after_lookup st ps key rclient method (resolveURL rclient callURL),
        inl (Some (served e false), None)).
Proof.
  intros Hpool Hmock Hfresh. unfold prepare. rewrite Hpool. cbn [mbind outcome_bind].
  cbn [useMock mocks with_pools pools].
  rewrite (not_mocked_lookup _ _ _ _ _ Hmock).
  unfold registry_after_lookup, fresh_entry, cache_entry, has_cache in *.
  destruct (String.eqb method MethodGet) eqn:Hget; [|done]. cbn [andb].
  destruct (cache rclient) as [c|] eqn:Hc; cbn [mbind option_bind] in *; [|done].
  rewrite (getResponseFromCache_spec _ _ c) by done. cbn [mbind outcome_bind].
  destruct (lru.Peek c (resolveURL rclient callURL)) as [e'|] eqn:He; [|done].
  destruct (now <? Expires e') eqn:Hnow; [|done].
  injection Hfresh as ->. done.
Qed.

(** After an answer whose status is not 200 the cache is left alone, and
    the stale candidate, if the pool serves stale entries and one was kept,
    replaces the response and the error. *)
Lemma complete_not_ok now st (p : pending) (r : reply) :
  Code (receive r).1 ≠ StatusOK →
  complete now st p r
  = Ok (st, if withCache p && stale (pendingClient p)
               && bool_decide (is_Some (cachedResponse p))
            then (cachedResponse p, None)
            else (Some (receive r).1, (receive r).2)).
Proof.
  intros Hcode. unfold complete. destruct (receive r) as [rcResponse error]. simpl in *.
  destruct (withCache p); [|done]. simpl.
  destruct (Code rcResponse =? StatusOK) eqn:E; [by apply Z.eqb_eq in E|].
  by destruct (stale (pendingClient p) && bool_decide (is_Some (cachedResponse p))).
Qed.

Lemma stale_candidate_Some now rclient method callURL e :
  stale_candidate now rclient method callURL = Some e →
  String.eqb method MethodGet = true ∧ has_cache rclient = true ∧ stale rclient = true.
Proof.
  unfold stale_candidate, cache_entry, has_cache.
  destruct (String.eqb method MethodGet); [|done].
  destruct (cache rclient); [|done]. simpl.
  destruct (lru.Peek _ _); [|done].
  destruct (now <? Expires _); [done|]. by destruct (stale rclient).
Qed.

(** What a call that reached the network returns when the status of the
    answer is not 200. *)
Lemma performRequest_not_ok w st method callURL body headers key rclient ps :
  getPool (range_pools w) (pools st) callURL = Ok (key, rclient, ps) →
  not_mocked st method (resolveURL rclient callURL) headers body →
  fresh_entry (clock_lookup w) rclient method (resolveURL rclient callURL) = None →
  NewRequest_ok method (resolveURL rclient callURL) = true →
  Code (receive (answer w)).1 ≠ StatusOK →
  ∃ st' req,
    performRequest w st method callURL body headers
    = Ok (st',
          match stale_candidate (clock_lookup w) rclient method (resolveURL rclient callURL) with
          | Some e => (Some (served e true), None)
          | None => (Some (receive (answer w)).1, (receive (answer w)).2)
          end,
          Some req).
Proof.
  intros Hpool Hmock Hfresh Hnew Hcode.
  assert (∃ req, NewRequest method (resolveURL rclient callURL) body headers = Some req)
    as [req Hreq].
  { unfold NewRequest. rewrite Hnew. by eexists. }
  eexists _, req. unfold performRequest.
  rewrite (prepare_network _ _ _ _ _ _ _ _ _ _ _ Hpool Hmock Hfresh Hreq).
  cbn [mbind outcome_bind]. rewrite complete_not_ok by done.
  cbn [mbind outcome_bind pending_after_lookup withCache pendingClient cachedResponse outgoing].
  destruct (stale_candidate _ rclient method _) as [e|] eqn:Hst.
  - destruct (stale_candidate_Some _ _ _ _ _ Hst) as (-> & -> & Hs). simpl.
    rewrite stale_touched, Hs. simpl. done.
  - simpl. rewrite andb_false_r. done.
Qed.

(** C4.  A GET through a pool that has a cache and serves stale entries,
    not answered by the mock registry, whose cache holds an expired entry
    for the resolved URL and whose network attempt ends with a status other
    than 200, returns the body and headers of that entry with both flags
    set, and no error. *)
Theorem stale_entry_served_on_failure w st callURL body headers key rclient ps c e :
  getPool (range_pools w) (pools st) callURL = Ok (key, rclient, ps) →
  cache rclient = Some c →
  stale rclient = true →
  not_mocked st MethodGet (resolveURL rclient callURL) headers body →
  lru.Peek c (resolveURL rclient callURL) = Some e →
  Expires e ≤ clock_lookup w →
  NewRequest_ok MethodGet (resolveURL rclient callURL) = true →
  Code (receive (answer w)).1 ≠ StatusOK →
  ∃ st' req,
    performRequest w st MethodGet callURL body headers
    = Ok (st',
          (Some {| Body := Content e; Code := 200; Headers := elementHeaders e;
                   CachedContent := true; Staled := true |}, None),
          Some req).
Proof.
  intros Hpool Hc Hs Hmock He Hexp Hnew Hcode.
  assert (Hold : (clock_lookup w <? Expires e) = false) by (apply Z.ltb_ge; lia).
  destruct (performRequest_not_ok w st MethodGet callURL body headers key rclient ps)
    as (st' & req & Hrun); try done.
  - unfold fresh_entry, cache_entry. simpl. rewrite Hc. simpl. by rewrite He, Hold.
  - exists st', req. rewrite Hrun.
    unfold stale_candidate, cache_entry. simpl. rewrite Hc. simpl.
    by rewrite He, Hold, Hs.
Qed.

(** C5, as amended.  A call that reaches the network and meets a transport
    error returns a response with empty body, status 0 and no headers,
    together with the error, unless it is a GET through a pool with a cache
    that serves stale entries and holds an expired entry for the resolved
    URL: then that entry is returned, flagged as cached and stale, and the
    error is dropped. *)
Theorem transport_error_result w st method callURL body headers key rclient ps msg :
  getPool (range_pools w) (pools st) callURL = Ok (key, rclient, ps) →
  not_mocked st method (resolveURL rclient callURL) headers body →
  fresh_entry (clock_lookup w) rclient method (resolveURL rclient callURL) = None →
  NewRequest_ok method (resolveURL rclient callURL) = true →
  answer w = Failed msg →
  ∃ st' req,
    performRequest w st method callURL body headers
    = Ok (st',
          match stale_candidate (clock_lookup w) rclient method (resolveURL rclient callURL) with
          | Some e =>
              (Some {| Body := Content e; Code := 200; Headers := elementHeaders e;
                       CachedContent := true; Staled := true |}, None)
          | None =>
              (Some {| Body := ""; Code := 0; Headers := None;
                       CachedContent := false; Staled := false |},
               Some (TransportError msg))
          end,
          Some req).
Proof.
  intros Hpool Hmock Hfresh Hnew Hanswer.
  destruct (performRequest_not_ok w st method callURL body headers key rclient ps)
    as (st' & req & Hrun); try done.
  - by rewrite Hanswer.
  - exists st', req. rewrite Hrun, Hanswer. done.
Qed.

(** C6, as amended.  A call whose redirect was intercepted never returns an
    error.  It returns a response with the status and headers of the
    redirect response and an empty body, unless it is a GET through a pool
    with a cache that serves stale entries and holds an expired entry for
    the resolved URL: then that entry is returned, flagged as cached and
    stale. *)
Theorem redirect_result w st method callURL body headers key rclient ps status header :
  getPool (range_pools w) (pools st) callURL = Ok (key, rclient, ps) →
  not_mocked st method (resolveURL rclient callURL) headers body →
  fresh_entry (clock_lookup w) rclient method (resolveURL rclient callURL) = None →
  NewRequest_ok method (resolveURL rclient callURL) = true →
  answer w = Redirected status header →
  ∃ st' req,
    performRequest w st method callURL body headers
    = Ok (st',
          (Some match stale_candidate (clock_lookup w) rclient method
                        (resolveURL rclient callURL) with
                | Some e =>
                    {| Body := Content e; Code := 200; Headers := elementHeaders e;
                       CachedContent := true; Staled := true |}
                | None =>
                    {| Body := ""; Code := StatusCode_of status; Headers := Some header;
                       CachedContent := false; Staled := false |}
                end, None),
          Some req).
Proof.
  intros Hpool Hmock Hfresh Hnew Hanswer.
  destruct (performRequest_not_ok w st method callURL body headers key rclient ps)
    as (st' & req & Hrun); try done.
  - rewrite Hanswer. by destruct status.
  - exists st', req. rewrite Hrun, Hanswer.
    by destruct (stale_candidate _ _ _ _).
Qed.

(** C7.  A GET through a pool with a cache, not answered by the mock
    registry, whose cache holds an entry for the resolved URL that has not
    expired, returns the body and headers of the entry with status 200, the
    cached flag set and the stale flag clear, no error, and sends nothing to
    the network; and an entry admitted with a max-age of [maxAge] seconds
    has not expired exactly until [maxAge] seconds after its admission. *)
Theorem fresh_entry_served w st callURL body headers key rclient ps c e :
  getPool (range_pools w) (pools st) callURL = Ok (key, rclient, ps) →
  cache rclient = Some c →
  not_mocked st MethodGet (resolveURL rclient callURL) headers body →
  lru.Peek c (resolveURL rclient callURL) = Some e →
  (clock_lookup w < Expires e →
   ∃ st',
     performRequest w st MethodGet callURL body headers
     = Ok (st',
           (Some {| Body := Content e; Code := 200; Headers := elementHeaders e;
                    CachedContent := true; Staled := false |}, None),
           None))
  ∧ (∀ stored_at response maxAge,
       e = new_cacheElement stored_at response maxAge →
       0 < maxAge ≤ MaxSeconds →
       Content e = Body response ∧ elementHeaders e = Headers response
       ∧ (clock_lookup w < Expires e ↔ clock_lookup w < stored_at + maxAge * Second)).
Proof.
  intros Hpool Hc Hmock He. split.
  - intros Hnow. eexists. unfold performRequest.
    rewrite (prepare_fresh _ _ _ _ _ _ _ _ _ _ e Hpool Hmock); [done|].
    unfold fresh_entry, cache_entry. simpl. rewrite Hc. simpl. rewrite He.
    by apply Z.ltb_lt in Hnow as ->.
  - intros stored_at response maxAge -> Hrange. split_and!; [done|done|].
    unfold new_cacheElement, Expires. by rewrite wrap64_seconds.
Qed.

(** C9, as amended.  The lookup of an expired entry returns it, flagged as
    cached and stale, when the pool serves stale entries, and returns
    nothing when it does not; either way the executor (the call being a GET
    not answered by the mock registry) keeps what the lookup returned and
    hands its request to the network. *)
Theorem expired_entry_lookup w st callURL body headers key rclient ps c e :
  getPool (range_pools w) (pools st) callURL = Ok (key, rclient, ps) →
  cache rclient = Some c →
  not_mocked st MethodGet (resolveURL rclient callURL) headers body →
  lru.Peek c (resolveURL rclient callURL) = Some e →
  Expires e ≤ clock_lookup w →
  NewRequest_ok MethodGet (resolveURL rclient callURL) = true →
  let candidate :=
    if stale rclient
    then Some {| Body := Content e; Code := 200; Headers := elementHeaders e;
                 CachedContent := true; Staled := true |}
    else None in
  getResponseFromCache (clock_lookup w) rclient (resolveURL rclient callURL)
  = Ok (candidate, touched rclient (resolveURL rclient callURL))
  ∧ ∃ st1 p,
      prepare (range_pools w) (clock_lookup w) st MethodGet callURL body headers
      = Ok (st1, inr p)
      ∧ cachedResponse p = candidate
      ∧ requestURL (outgoing p) = resolveURL rclient callURL.
Proof.
  intros Hpool Hc Hmock He Hexp Hnew candidate.
  assert (Hold : (clock_lookup w <? Expires e) = false) by (apply Z.ltb_ge; lia).
  split.
  - rewrite (getResponseFromCache_spec _ _ c) by done. rewrite He, Hold.
    unfold candidate. by destruct (stale rclient).
  - assert (∃ req, NewRequest MethodGet (resolveURL rclient callURL) body headers = Some req
                   ∧ requestURL req = resolveURL rclient callURL) as (req & Hreq & Hurl).
    { unfold NewRequest. rewrite Hnew. by eexists. }
    eexists _, _. split_and!.
    + apply (prepare_network _ _ _ _ _ _ _ _ _ _ req Hpool Hmock); [|done].
      unfold fresh_entry, cache_entry. simpl. rewrite Hc. simpl. by rewrite He, Hold.
    + unfold pending_after_lookup, cachedResponse, stale_candidate, cache_entry, candidate.
      simpl. rewrite Hc. simpl. rewrite He, Hold. by destruct (stale rclient).
    + done.
Qed.

(** The loop of [getMaxAge] in closed form: as soon as one value mentions
    max-age, the first value of the slice is the one split and parsed. *)
Lemma getMaxAge_range_cases (cacheControlValues values : list string) :
  getMaxAge_range cacheControlValues values
  = if existsb (fun value => strings.Contains (strings.ToLower value) "max-age") values
    then match cacheControlValues with
         | [] => Panic
         | first :: _ =>
             match strings.Split first "=" with
             | _ :: number :: _ => Ok (strconv.Atoi number)
             | _ => Panic
             end
         end
    else Ok (0, false).
Proof.
  induction values as [|value rest IH]; simpl; [done|].
  by destruct (strings.Contains (strings.ToLower value) "max-age").
Qed.

Lemma with_cache_touched rclient callURL c :
  with_cache (touched rclient callURL) c = with_cache rclient c.
Proof.
  unfold touched. destruct (cache rclient) as [c0|]; [|done].
  by destruct (lru.Contains c0 callURL).
Qed.

Lemma setResponseInCache_stores now rclient (response : Response) callURL
    c header value others before number more n err :
  cache rclient = Some c →
  Headers response = Some header →
  header !! "Cache-Control" = Some (value :: others) →
  strings.Contains (strings.ToLower value) "max-age" = true →
  strings.Split value "=" = before :: number :: more →
  strconv.Atoi number = (n, err) →
  0 < n →
  setResponseInCache now rclient response callURL
  = Ok (with_cache rclient (lru.Add c callURL (new_cacheElement now response n))).
Proof.
  intros Hc Hh Hcc Hcontains Hsplit Hatoi Hn. unfold setResponseInCache.
  rewrite Hh. simpl. rewrite Hcc. unfold getMaxAge. simpl.
  rewrite Hcontains, Hsplit, Hatoi. simpl.
  destruct (n >? 0) eqn:E; [by rewrite Hc|]. lia.
Qed.

Lemma setResponseInCache_declined now rclient (response : Response) callURL method :
  declined method rclient response →
  method = MethodGet → has_cache rclient = true → Code response = StatusOK →
  setResponseInCache now rclient response callURL = Ok rclient.
Proof.
  intros Hd Hm Hcache Hcode. unfold setResponseInCache.
  destruct Hd as [Hne|Hnone|Hne|Hh|values Hh Hall
                  |value others before number more n err Hh Hmentions Hsplit Hatoi Hn].
  - done.
  - unfold has_cache in Hcache. by rewrite Hnone in Hcache.
  - done.
  - by rewrite Hh.
  - rewrite Hh. unfold getMaxAge. rewrite getMaxAge_range_cases.
    replace (existsb _ values) with false; [done|].
    symmetry. apply not_true_is_false. intros Hex.
    apply existsb_exists in Hex as (v & Hin & Hv).
    rewrite Forall_forall in Hall. apply list_elem_of_In in Hin.
    specialize (Hall v Hin). congruence.
  - rewrite Hh. unfold getMaxAge. rewrite getMaxAge_range_cases.
    rewrite Hsplit, Hatoi.
    destruct (existsb _ _); simpl; [|done].
    destruct (n >? 0) eqn:E; [lia|done].
Qed.

Lemma same_entries_refl rclient : same_entries rclient rclient.
Proof. unfold same_entries. by destruct (cache rclient). Qed.

(** After a declined answer the call completes and the cache of the pool
    stores what it stored before the call. *)
Lemma complete_declined now st ps key rclient lookup method callURL req (r : reply) :
  ps !! key = Some rclient →
  declined method rclient (receive r).1 →
  ∃ st' res rclient',
    complete now (registry_after_lookup st ps key rclient method callURL)
             (pending_after_lookup key rclient lookup method callURL req) r
    = Ok (st', res)
    ∧ pools st' !! key = Some rclient'
    ∧ same_entries rclient rclient'.
Proof.
  intros Hkey Hd. unfold complete, registry_after_lookup, pending_after_lookup.
  destruct (receive r) as [rcResponse error] eqn:Hrecv. simpl in Hd.
  cbn [withCache pendingClient resolvedURL poolKey cachedResponse].
  destruct (String.eqb method MethodGet && has_cache rclient) eqn:Hwith.
  - apply andb_true_iff in Hwith as [Hget Hcache]. apply String.eqb_eq in Hget.
    destruct (Code rcResponse =? StatusOK) eqn:Hcode.
    + apply Z.eqb_eq in Hcode.
      rewrite (setResponseInCache_declined now (touched rclient callURL) rcResponse
                 callURL method).
      * simpl. eexists _, _, _. split_and!; [done|apply lookup_insert_eq|].
        apply same_entries_touched.
      * destruct Hd as [H|H|H|H|vs H1 H2|v o b nb m n0 e0 H1 H2 H3 H4 H5];
          [by apply declined_method
          |unfold has_cache in Hcache; by rewrite H in Hcache
          |by apply declined_status
          |by apply declined_no_header
          |by eapply declined_no_directive
          |by eapply declined_value].
      * done.
      * unfold has_cache, touched in *. destruct (cache rclient) as [c0|] eqn:E; [|done].
        destruct (lru.Contains c0 callURL); [done|by rewrite E].
      * done.
    + destruct (stale (touched rclient callURL) && _); simpl;
        (eexists _, _, _; split_and!;
         [done|apply lookup_insert_eq|apply same_entries_touched]).
  - eexists _, _, _. split_and!; [done|done|apply same_entries_refl].
Qed.

(** C2, as amended.  For a call that reaches the network: when it is a GET
    through a pool with a cache, the answer has status 200 and a body that
    could be read, the first Cache-Control value mentions max-age, and the
    text between its first and second "=" is an integer [n] with
    0 < n <= MaxSeconds, the entry (body, headers, clock + n seconds) is
    stored under the resolved URL; when the call is not a GET, or the pool
    has no cache, or the status is not 200, or the header is absent, or no
    value mentions max-age, or the first value mentions max-age and the
    number after its first "=" is not positive or not a number, the call
    completes and the cache stores what it stored before.  Nothing is said
    of a header whose first value does not mention max-age while a later one
    does, nor of a first value that mentions it without "=". *)
Theorem cache_admission w st method callURL body headers key rclient ps :
  range_of (pools st) (range_pools w) →
  getPool (range_pools w) (pools st) callURL = Ok (key, rclient, ps) →
  not_mocked st method (resolveURL rclient callURL) headers body →
  fresh_entry (clock_lookup w) rclient method (resolveURL rclient callURL) = None →
  NewRequest_ok method (resolveURL rclient callURL) = true →
  (∀ c header content value others before number more n err,
     method = MethodGet →
     cache (touched rclient (resolveURL rclient callURL)) = Some c →
     answer w = Answered 200 header (ReadAll content) →
     header !! "Cache-Control" = Some (value :: others) →
     strings.Contains (strings.ToLower value) "max-age" = true →
     strings.Split value "=" = before :: number :: more →
     strconv.Atoi number = (n, err) →
     0 < n ≤ MaxSeconds →
     let entry := {| Content := content; elementHeaders := Some header;
                     Expires := clock_store w + n * Second |} in
     ∃ st' req,
       performRequest w st method callURL body headers
       = Ok (st',
             (Some {| Body := content; Code := 200; Headers := Some header;
                      CachedContent := false; Staled := false |}, None),
             Some req)
       ∧ pools st' !! key
         = Some (with_cache rclient (lru.Add c (resolveURL rclient callURL) entry))
       ∧ lru.Peek (lru.Add c (resolveURL rclient callURL) entry)
                  (resolveURL rclient callURL) = Some entry)
  ∧ (declined method rclient (receive (answer w)).1 →
     ∃ st' res req rclient',
       performRequest w st method callURL body headers = Ok (st', res, Some req)
       ∧ pools st' !! key = Some rclient'
       ∧ same_entries rclient rclient').
Proof.
  intros Hr Hpool Hmock Hfresh Hnew.
  assert (∃ req, NewRequest method (resolveURL rclient callURL) body headers = Some req)
    as [req Hreq].
  { unfold NewRequest. rewrite Hnew. by eexists. }
  pose proof (prepare_network _ _ _ _ _ _ _ _ _ _ req Hpool Hmock Hfresh Hreq) as Hprep.
  split.
  - intros c header content value others before number more n err
      -> Hc Hanswer Hcc Hcontains Hsplit Hatoi Hn entry.
    assert (Hcache : has_cache rclient = true).
    { unfold has_cache, touched in *.
      destruct (cache rclient) eqn:E; [done|]. congruence. }
    eexists _, req. unfold performRequest. rewrite Hprep. cbn [mbind outcome_bind].
    unfold complete. rewrite Hanswer.
    cbn [receive pending_after_lookup withCache pendingClient resolvedURL poolKey Code].
    rewrite Hcache. cbn [String.eqb MethodGet andb]. simpl (_ && _). cbv iota.
    change (200 =? StatusOK) with true. cbv iota.
    erewrite setResponseInCache_stores; [|done|done|done|done|done|done|lia].
    cbn [mbind outcome_bind]. split_and!.
    + reflexivity.
    + cbn [pools with_pools]. rewrite lookup_insert_eq. f_equal.
      rewrite with_cache_touched. unfold new_cacheElement, entry.
      cbn [Body Headers]. by rewrite wrap64_seconds.
    + apply Peek_Add_eq.
  - intros Hd.
    destruct (complete_declined (clock_store w) st ps key rclient (clock_lookup w) method
                (resolveURL rclient callURL) req (answer w))
      as (st' & res & rclient' & Hrun & Hkey & Hsame); [|done|].
    + by apply (getPool_stored (range_pools w) (pools st) callURL).
    + exists st', res, req, rclient'. unfold performRequest. rewrite Hprep.
      cbn [mbind outcome_bind]. rewrite Hrun. done.
Qed.

End executor.

(** ** Further properties: URLs, headers, fixtures and registrations *)

Section registrations.

Context {go : GoLibrary}.

Lemma HasPrefix_app (a b : string) : strings.HasPrefix (a ++ b)%string a = true.
Proof.
  induction a as [|c a IH]; simpl; [by destruct b|].
  by rewrite Ascii.eqb_refl.
Qed.

Lemma Contains_of_HasPrefix (s p : string) :
  strings.HasPrefix s p = true → strings.Contains s p = true.
Proof. intros H. destruct s; cbn [strings.Contains]; by rewrite H. Qed.

(** X1.  The URL a call is made with always contains the base URL of the
    pool, and resolving it a second time changes nothing: a URL is never
    prefixed twice. *)
Theorem resolveURL_contains_baseURL (rclient : rClient) (callURL : string) :
  strings.Contains (resolveURL rclient callURL) (baseURL rclient) = true
  ∧ resolveURL rclient (resolveURL rclient callURL) = resolveURL rclient callURL.
Proof.
  unfold resolveURL.
  destruct (String.eqb (baseURL rclient) "") eqn:Hbase; simpl.
  - apply String.eqb_eq in Hbase. rewrite Hbase. split; [|done].
    apply Contains_of_HasPrefix. by destruct callURL.
  - destruct (strings.Contains callURL (baseURL rclient)) eqn:Hc; simpl.
    + by rewrite Hc.
    + assert (H : strings.Contains (baseURL rclient ++ callURL)%string (baseURL rclient) = true)
        by apply Contains_of_HasPrefix, HasPrefix_app.
      by rewrite H.
Qed.

Lemma fold_insert_headers (headers : list Header) (m0 : gmap string string) k :
  fold_left (fun headersMap header => <[Key header := Value header]> headersMap) headers m0 !! k
  = match last (filter (fun h => Key h = k) headers) with
    | Some h => Some (Value h)
    | None => m0 !! k
    end.
Proof.
  revert m0. induction headers as [|h t IH]; intros m0; simpl; [done|].
  rewrite IH, filter_cons. destruct (decide (Key h = k)) as [Hk|Hk].
  - rewrite last_cons. destruct (last (filter _ t)); [done|].
    rewrite Hk. apply lookup_insert_eq.
  - destruct (last (filter _ t)); [done|]. by apply lookup_insert_ne.
Qed.

(** X2.  In the map built from the variadic headers, a key holds the value
    of the last header given with that key, and is absent when no header
    has it. *)
Theorem getHeadersMap_last_wins (headers : list Header) (k : string) :
  getHeadersMap headers ≫= (fun m => m !! k)
  = Value <$> last (filter (fun h => Key h = k) headers).
Proof.
  unfold getHeadersMap. simpl. rewrite fold_insert_headers.
  by destruct (last (filter _ headers)).
Qed.

Lemma searchMockCall_AddMock_new (st : registry) URL method body response headers :
  searchMockCall (mocks st) method URL (getHeadersMap headers) body = None →
  searchMockCall (mocks (AddMock URL method body response headers st))
    method URL (getHeadersMap headers) body = Some response.
Proof.
  intros Hnone. unfold searchMockCall in *. rewrite AddMock_appends, searchMock_app.
  destruct (searchMock (mocks st) method URL (getHeadersMap headers) body); [done|].
  simpl.
  match goal with |- context [mock_matches ?m _ _ _ _] => set (new := m) end.
  assert (Hm : mock_matches new method URL (getHeadersMap headers) body = true)
    by by apply mock_matches_eq.
  by rewrite Hm.
Qed.

(** X3.  A fixture registered under a key that no earlier fixture has is
    the one a lookup of that key returns, and the lookups of every other
    key are left as they were. *)
Theorem AddMock_then_lookup (st : registry) URL method body response headers :
  searchMockCall (mocks st) method URL (getHeadersMap headers) body = None →
  searchMockCall (mocks (AddMock URL method body response headers st))
    method URL (getHeadersMap headers) body = Some response
  ∧ ∀ method' callURL' h' body',
      ¬ (callURL' = URL ∧ method' = method ∧ h' = getHeadersMap headers ∧ body' = body) →
      searchMockCall (mocks (AddMock URL method body response headers st))
        method' callURL' h' body'
      = searchMockCall (mocks st) method' callURL' h' body'.
Proof.
  intros Hnone. split; [by apply searchMockCall_AddMock_new|].
  unfold searchMockCall in *. rewrite AddMock_appends.
  - intros method' callURL' h' body' Hne. rewrite searchMock_app.
    destruct (searchMock (mocks st) method' callURL' h' body'); [done|].
    simpl.
    match goal with |- context [mock_matches ?m _ _ _ _] => set (new := m) end.
    destruct (mock_matches new method' callURL' h' body') eqn:E; [|done].
    apply mock_matches_eq in E as (E1 & E2 & E3 & E4). simpl in *.
    destruct Hne. by subst.
Qed.

Lemma AddMocks_lookup_general (order : list (string * Response)) (st : registry) callURL :
  searchMockCall (mocks (AddMocks order st)) MethodGet callURL (getHeadersMap []) ""
  = match searchMockCall (mocks st) MethodGet callURL (getHeadersMap []) "" with
    | Some r => Some r
    | None => (list_to_map order : gmap string Response) !! callURL
    end.
Proof.
  revert st. induction order as [|[k r] order IH]; intros st.
  - simpl. by destruct (searchMockCall _ _ _ _ _).
  - change (AddMocks ((k, r) :: order) st)
      with (AddMocks order (AddMock k MethodGet "" r [] st)).
    rewrite IH, list_to_map_cons.
    destruct (searchMockCall (mocks st) MethodGet callURL (getHeadersMap []) "") as [r0|] eqn:E.
    + unfold searchMockCall in *. rewrite AddMock_appends, searchMock_app.
      by destruct (searchMock (mocks st) MethodGet callURL (getHeadersMap []) "").
    + destruct (decide (k = callURL)) as [->|Hne].
      * rewrite lookup_insert_eq.
        by rewrite (searchMockCall_AddMock_new st callURL MethodGet "" r [] E).
      * rewrite lookup_insert_ne by done.
        unfold searchMockCall in *. rewrite AddMock_appends, searchMock_app.
        destruct (searchMock (mocks st) MethodGet callURL (getHeadersMap []) ""); [done|].
        simpl.
        match goal with |- context [mock_matches ?m _ _ _ _] => set (new := m) end.
        destruct (mock_matches new MethodGet callURL (getHeadersMap []) "") eqn:E'; [|done].
        apply mock_matches_eq in E' as (E1 & _). simpl in E1. congruence.
Qed.

(** X4.  After a bulk registration on a registry that answers no GET
    without body and headers, such a lookup of a URL returns exactly the
    response the map holds for it, in whatever order the map was visited. *)
Theorem AddMocks_registers_every_entry (m : gmap string Response)
    (order : list (string * Response)) (st : registry) :
  range_of m order →
  (∀ callURL, searchMockCall (mocks st) MethodGet callURL (getHeadersMap []) "" = None) →
  ∀ callURL,
    searchMockCall (mocks (AddMocks order st)) MethodGet callURL (getHeadersMap []) ""
    = m !! callURL.
Proof.
  intros Hr Hnone callURL. rewrite AddMocks_lookup_general, Hnone.
  unfold range_of in Hr.
  rewrite (list_to_map_proper order (map_to_list m)); [by rewrite list_to_map_to_list| |done].
  rewrite Hr. apply NoDup_fst_map_to_list.
Qed.

(** X5.  Registering a pool under a pattern replaces what the pattern held:
    the earlier registration leaves no trace, the other patterns and the
    fixtures are untouched, and the new pool has the base URL of its
    configuration, an empty cache exactly when the configured capacity is
    positive, and stale-serving only together with a cache. *)
Theorem AddCustomPool_replaces (pattern : string) (config config' : PoolConfig) (st : registry) :
  AddCustomPool pattern config' (AddCustomPool pattern config st)
  = AddCustomPool pattern config' st
  ∧ (∀ other, other ≠ pattern →
              pools (AddCustomPool pattern config' st) !! other = pools st !! other)
  ∧ mocks (AddCustomPool pattern config' st) = mocks st
  ∧ useMock (AddCustomPool pattern config' st) = useMock st
  ∧ ∃ rclient,
      pools (AddCustomPool pattern config' st) !! pattern = Some rclient
      ∧ baseURL rclient = BaseURL config'
      ∧ (∀ method callURL, cache_entry rclient method callURL = None)
      ∧ (has_cache rclient = true ↔ 0 < CacheElements config')
      ∧ (stale rclient = true ↔ 0 < CacheElements config' ∧ CacheState config' = true).
Proof.
  unfold AddCustomPool, with_pools. cbn [pools mocks useMock]. split_and!.
  - f_equal. apply insert_insert_eq.
  - intros other Hne. by apply lookup_insert_ne.
  - done.
  - done.
  - eexists. split; [apply lookup_insert_eq|]. cbn [baseURL cache stale].
    unfold cache_entry, has_cache. cbn [cache].
    destruct (CacheElements config') as [|n|n] eqn:E; cbn.
    + split_and!; [done|by intros; destruct (String.eqb _ _)|split; [done|lia]
                   |split; [done|intros [? _]; lia]].
    + split_and!; [done|by intros; destruct (String.eqb _ _)|split; [lia|done]|].
      split; [intros ->; split; [lia|done]|by intros [_ ->]].
    + split_and!; [done|by intros; destruct (String.eqb _ _)|split; [done|lia]
                   |split; [done|intros [? _]; lia]].
Qed.

(** X6.  When exactly one key of the registry matches the URL, the call is
    resolved to the pool under that key and the registry is unchanged, in
    whatever order the map is visited. *)
Theorem getPool_unique_match (ps : gmap string rClient) (order : list (string * rClient))
    (callURL key : string) (pool : rClient) :
  range_of ps order →
  ps !! key = Some pool →
  MatchString key callURL = Some true →
  (∀ other rclient, ps !! other = Some rclient → other ≠ key →
                    MatchString other callURL = Some false) →
  getPool order ps callURL = Ok (key, pool, ps).
Proof.
  intros Hr Hkey Hmatch Hothers.
  destruct (getPool_range_total order callURL) as [(p & q & Hrun & Hin & Hm)|[Hrun Hmiss]].
  - intros p q Hin. apply (range_of_lookup ps order) in Hin; [|done].
    destruct (decide (p = key)) as [->|Hne]; [by rewrite Hmatch|].
    rewrite (Hothers p q Hin Hne). by eexists.
  - apply (range_of_lookup ps order) in Hin; [|done].
    destruct (decide (p = key)) as [->|Hne].
    + unfold getPool. rewrite Hrun. simpl. congruence.
    + rewrite (Hothers p q Hin Hne) in Hm. done.
  - assert (Hin : (key, pool) ∈ order) by by apply (range_of_lookup ps order).
    rewrite (Hmiss key pool Hin) in Hmatch. done.
Qed.

End registrations.

(** ** Further properties of [getMaxAge] *)

Section max_age.

Lemma Contains_byte (s : string) (sep : ascii) c :
  strings.Contains (String c s) (String sep EmptyString)
  = if Ascii.eqb c sep then true else strings.Contains s (String sep EmptyString).
Proof.
  cbn [strings.Contains strings.HasPrefix].
  destruct (Ascii.eqb c sep); [by destruct s|done].
Qed.

(** [strings.Split] gives one piece, the string itself, when the separator
    does not occur, and at least two when it does. *)
Lemma Split_pieces (s : string) (sep : ascii) :
  if strings.Contains s (String sep EmptyString)
  then ∃ first second more, strings.Split s sep = first :: second :: more
  else strings.Split s sep = [s].
Proof.
  induction s as [|c s IH]; [done|].
  rewrite Contains_byte. cbn [strings.Split].
  destruct (Ascii.eqb c sep).
  - destruct (strings.Split s sep) as [|p ps] eqn:E; [|by eexists _, _, _].
    destruct (strings.Contains s (String sep EmptyString)); [by destruct IH as (?&?&?&?)|done].
  - destruct (strings.Contains s (String sep EmptyString)).
    + destruct IH as (p & q & r & ->). by eexists _, _, _.
    + by rewrite IH.
Qed.

(** X13.  [getMaxAge] panics exactly when some Cache-Control value mentions
    max-age (in any letter case) while the first value has no "=";
    otherwise it returns: 0 without error when no value mentions max-age,
    and what [strconv.Atoi] makes of the text between the first and second
    "=" of the first value when one does. *)
Theorem getMaxAge_panics_iff (values : list string) :
  (getMaxAge values = Panic
   ↔ Exists (fun value => strings.Contains (strings.ToLower value) "max-age" = true) values
     ∧ ∃ first rest, values = first :: rest ∧ strings.Contains first "=" = false)
  ∧ (Forall (fun value => strings.Contains (strings.ToLower value) "max-age" = false) values →
     getMaxAge values = Ok (0, false))
  ∧ (∀ first rest,
       values = first :: rest →
       Exists (fun value => strings.Contains (strings.ToLower value) "max-age" = true) values →
       strings.Contains first "=" = true →
       ∃ before number more,
         strings.Split first "=" = before :: number :: more
         ∧ getMaxAge values = Ok (strconv.Atoi number)).
Proof.
  assert (Hex : existsb (fun value => strings.Contains (strings.ToLower value) "max-age") values
                = true
                ↔ Exists (fun value => strings.Contains (strings.ToLower value) "max-age" = true)
                         values).
  { rewrite existsb_exists, Exists_exists. split; intros (v & Hin & Hv); exists v.
    - by rewrite list_elem_of_In.
    - by rewrite <- list_elem_of_In. }
  unfold getMaxAge. rewrite getMaxAge_range_cases. split_and!.
  - destruct (existsb _ values) eqn:E.
    + destruct values as [|first rest]; [done|].
      pose proof (Split_pieces first "=") as Hsplit.
      destruct (strings.Contains first "=") eqn:Hc.
      * destruct Hsplit as (p & q & r & ->). split; [done|].
        intros (_ & f & r' & [= <- <-] & Hf). congruence.
      * rewrite Hsplit. split; [|done]. intros _. split; [by apply Hex|by eexists _, _].
    + split; [done|]. intros [H _]. apply Hex in H. congruence.
  - intros Hall. destruct (existsb _ values) eqn:E; [|done].
    assert (He : Exists (fun value => strings.Contains (strings.ToLower value) "max-age" = true)
                        values) by by apply Hex.
    apply Exists_exists in He as (v & Hin & Hv).
    rewrite Forall_forall in Hall. specialize (Hall v Hin). congruence.
  - intros first rest -> Hsome Hc. apply Hex in Hsome. rewrite Hsome.
    pose proof (Split_pieces first "=") as Hsplit. rewrite Hc in Hsplit.
    destruct Hsplit as (p & q & r & ->). by eexists _, _, _.
Qed.

End max_age.

(** ** Further properties of the request executor *)

Section calls.

Context {go : GoLibrary}.
Implicit Types (st : registry) (rclient : rClient) (w : world).

(** A call that the mock registry does not answer and that finds no fresh
    entry either hands its request to the network or, when
    [http.NewRequest] rejects it, returns the error. *)
Lemma prepare_no_fresh order now st method callURL body headers key rclient ps :
  getPool order (pools st) callURL = Ok (key, rclient, ps) →
  not_mocked st method (resolveURL rclient callURL) headers body →
  fresh_entry now rclient method (resolveURL rclient callURL) = None →
  prepare order now st method callURL body headers
  = Ok (registry_after_lookup st ps key rclient method (resolveURL rclient callURL),
        match NewRequest method (resolveURL rclient callURL) body headers with
        | Some req =>
            inr (pending_after_lookup key rclient now method (resolveURL rclient callURL) req)
        | None => inl (None, Some NewRequestError)
        end).
Proof.
  intros Hpool Hmock Hfresh.
  destruct (NewRequest method (resolveURL rclient callURL) body headers) as [req|] eqn:Hreq;
    [by apply prepare_network|].
  unfold prepare. rewrite Hpool. cbn [mbind outcome_bind].
  cbn [useMock mocks with_pools pools].
  rewrite (not_mocked_lookup _ _ _ _ _ Hmock).
  unfold registry_after_lookup, fresh_entry, cache_entry, has_cache in *.
  destruct (String.eqb method MethodGet) eqn:Hget; cbn [andb].
  - destruct (cache rclient) as [c|] eqn:Hc; cbn [mbind option_bind] in *.
    + rewrite (getResponseFromCache_spec _ _ c) by done. cbn [mbind outcome_bind].
      cbn [pools with_pools].
      destruct (lru.Peek c (resolveURL rclient callURL)) as [e|] eqn:He.
      * destruct (now <? Expires e) eqn:Hnow; [done|].
        destruct (stale rclient); cbn [negb served Staled]; by rewrite Hreq.
      * cbn. by rewrite Hreq.
    + cbn. by rewrite Hreq.
  - cbn. by rewrite Hreq.
Qed.

Lemma no_cache_no_entry rclient method callURL :
  method ≠ MethodGet ∨ cache rclient = None →
  cache_entry rclient method callURL = None
  ∧ String.eqb method MethodGet && has_cache rclient = false.
Proof.
  unfold cache_entry, has_cache. intros [Hm|Hc].
  - apply String.eqb_neq in Hm. by rewrite Hm.
  - rewrite Hc. by destruct (String.eqb method MethodGet).
Qed.

(** X7.  A call that is not a GET, or goes through a pool without cache,
    and that no fixture answers always goes to the network and returns what
    the network gave, error included: it completes whatever the answer,
    stores nothing, and leaves the registry as pool resolution left it. *)
Theorem uncached_call_passes_through w st method callURL body headers key rclient ps :
  getPool (range_pools w) (pools st) callURL = Ok (key, rclient, ps) →
  not_mocked st method (resolveURL rclient callURL) headers body →
  method ≠ MethodGet ∨ cache rclient = None →
  NewRequest_ok method (resolveURL rclient callURL) = true →
  performRequest w st method callURL body headers
  = Ok (with_pools st ps,
        (Some (receive (answer w)).1, (receive (answer w)).2),
        Some {| requestMethod := method;
                requestURL := resolveURL rclient callURL;
                requestBody := if String.eqb method MethodPost || String.eqb method MethodPut
                               then Some body else None;
                requestHeaders := headers |}).
Proof.
  intros Hpool Hmock Hno Hnew.
  destruct (no_cache_no_entry rclient method (resolveURL rclient callURL) Hno) as [Hentry Hwith].
  unfold performRequest. rewrite (prepare_no_fresh _ _ _ _ _ _ _ _ _ _ Hpool Hmock).
  - unfold NewRequest. rewrite Hnew. cbn [mbind outcome_bind].
    unfold complete, registry_after_lookup, pending_after_lookup. rewrite Hwith.
    cbn [withCache]. by destruct (receive (answer w)).
  - unfold fresh_entry. by rewrite Hentry.
Qed.

(** X8.  When [http.NewRequest] rejects the method or the URL, a call that
    no fixture and no fresh cache entry answered returns no response at all
    (a nil pointer) together with the error, and sends nothing. *)
Theorem rejected_request_returns_nil w st method callURL body headers key rclient ps :
  getPool (range_pools w) (pools st) callURL = Ok (key, rclient, ps) →
  not_mocked st method (resolveURL rclient callURL) headers body →
  fresh_entry (clock_lookup w) rclient method (resolveURL rclient callURL) = None →
  NewRequest_ok method (resolveURL rclient callURL) = false →
  ∃ st', performRequest w st method callURL body headers
         = Ok (st', (None, Some NewRequestError), None).
Proof.
  intros Hpool Hmock Hfresh Hnew. eexists. unfold performRequest.
  rewrite (prepare_no_fresh _ _ _ _ _ _ _ _ _ _ Hpool Hmock Hfresh).
  unfold NewRequest. rewrite Hnew. done.
Qed.

(** X9.  When the body of the answer cannot be read, the call returns the
    status of the answer with an empty body and no headers, together with
    the read error, and stores nothing; unless the status is not 200 and a
    stale candidate was kept, which is then returned without error. *)
Theorem unreadable_body_result w st method callURL body headers key rclient ps
    StatusCode header msg :
  range_of (pools st) (range_pools w) →
  getPool (range_pools w) (pools st) callURL = Ok (key, rclient, ps) →
  not_mocked st method (resolveURL rclient callURL) headers body →
  fresh_entry (clock_lookup w) rclient method (resolveURL rclient callURL) = None →
  NewRequest_ok method (resolveURL rclient callURL) = true →
  answer w = Answered StatusCode header (ReadFails msg) →
  ∃ st' req,
    performRequest w st method callURL body headers
    = Ok (st',
          match (if StatusCode =? StatusOK then None
                 else stale_candidate (clock_lookup w) rclient method
                        (resolveURL rclient callURL)) with
          | Some e =>
              (Some {| Body := Content e; Code := 200; Headers := elementHeaders e;
                       CachedContent := true; Staled := true |}, None)
          | None =>
              (Some {| Body := ""; Code := StatusCode; Headers := None;
                       CachedContent := false; Staled := false |},
               Some (ReadError msg))
          end,
          Some req)
    ∧ ∃ rclient', pools st' !! key = Some rclient' ∧ same_entries rclient rclient'.
Proof.
  intros Hr Hpool Hmock Hfresh Hnew Hanswer.
  pose proof (getPool_stored _ _ _ _ _ _ Hr Hpool) as Hkey.
  assert (∃ req, NewRequest method (resolveURL rclient callURL) body headers = Some req)
    as [req Hreq].
  { unfold NewRequest. rewrite Hnew. by eexists. }
  pose proof (prepare_network _ _ _ _ _ _ _ _ _ _ req Hpool Hmock Hfresh Hreq) as Hprep.
  unfold performRequest. rewrite Hprep. cbn [mbind outcome_bind].
  unfold complete. rewrite Hanswer. cbn [receive Code].
  unfold registry_after_lookup, pending_after_lookup.
  cbn [withCache pendingClient resolvedURL poolKey cachedResponse outgoing].
  destruct (String.eqb method MethodGet && has_cache rclient) eqn:Hwith.
  - destruct (StatusCode =? StatusOK) eqn:Hcode.
    + unfold setResponseInCache. cbn [Headers mbind option_bind outcome_bind].
      eexists _, req. split; [done|].
      cbn [pools with_pools]. rewrite lookup_insert_eq.
      eexists. split; [done|]. apply same_entries_touched.
    + rewrite stale_touched.
      destruct (stale_candidate _ rclient method _) as [e|] eqn:Hst.
      * destruct (stale_candidate_Some _ _ _ _ _ Hst) as (_ & _ & ->). simpl.
        eexists _, req. split; [done|].
        cbn [pools with_pools]. rewrite lookup_insert_eq.
        eexists. split; [done|]. apply same_entries_touched.
      * simpl. rewrite andb_false_r. eexists _, req. split; [done|].
        cbn [pools with_pools]. rewrite lookup_insert_eq.
        eexists. split; [done|]. apply same_entries_touched.
  - assert (Hst : stale_candidate (clock_lookup w) rclient method (resolveURL rclient callURL)
                  = None).
    { unfold stale_candidate, cache_entry, has_cache in *.
      destruct (String.eqb method MethodGet); [|done].
      destruct (cache rclient); [done|done]. }
    rewrite Hst. eexists _, req. split; [by destruct (StatusCode =? StatusOK)|].
    cbn [pools with_pools]. rewrite Hkey.
    eexists. split; [done|]. apply same_entries_refl.
Qed.

(** X10.  Through a pool that does not serve stale entries, or whose cache
    holds no entry for the URL, an answer whose status is not 200 is
    returned as it is: its status, body and headers, and the error if the
    transport or the reading failed. *)
Theorem failure_returned_without_stale_candidate w st method callURL body headers
    key rclient ps :
  getPool (range_pools w) (pools st) callURL = Ok (key, rclient, ps) →
  not_mocked st method (resolveURL rclient callURL) headers body →
  fresh_entry (clock_lookup w) rclient method (resolveURL rclient callURL) = None →
  stale rclient = false ∨ cache_entry rclient method (resolveURL rclient callURL) = None →
  NewRequest_ok method (resolveURL rclient callURL) = true →
  Code (receive (answer w)).1 ≠ StatusOK →
  ∃ st' req,
    performRequest w st method callURL body headers
    = Ok (st', (Some (receive (answer w)).1, (receive (answer w)).2), Some req).
Proof.
  intros Hpool Hmock Hfresh Hno Hnew Hcode.
  destruct (performRequest_not_ok w st method callURL body headers key rclient ps)
    as (st' & req & Hrun); try done.
  exists st', req. rewrite Hrun.
  replace (stale_candidate _ _ _ _) with (@None cacheElement); [done|].
  unfold stale_candidate. destruct Hno as [Hs|Hnone]; [|by rewrite Hnone].
  destruct (cache_entry _ _ _); [|done]. rewrite Hs. simpl. by rewrite orb_true_r.
Qed.

(** *** What a call leaves alone *)

Lemma prepare_without_mocks order now st ms method callURL body headers :
  useMock st = false →
  prepare order now (with_mocks st ms) method callURL body headers
  = match prepare order now st method callURL body headers with
    | Ok (st', stage) => Ok (with_mocks st' ms, stage)
    | Panic => Panic
    end.
Proof.
  intros Hoff. unfold prepare. cbn [pools with_mocks].
  destruct (getPool order (pools st) callURL) as [[[key rclient] ps]|]; [|done].
  cbn [mbind outcome_bind useMock mocks with_pools with_mocks]. rewrite Hoff.
  destruct (String.eqb method MethodGet && has_cache rclient).
  - destruct (getResponseFromCache now rclient (resolveURL rclient callURL))
      as [[cached rclient']|]; [|done].
    cbn [mbind outcome_bind pools with_pools].
    destruct (match cached with Some r => negb (Staled r) | None => false end); [done|].
    by destruct (NewRequest method (resolveURL rclient callURL) body headers).
  - cbn [mbind outcome_bind].
    by destruct (NewRequest method (resolveURL rclient callURL) body headers).
Qed.

Lemma complete_with_mocks now st ms (p : pending) (r : reply) :
  complete now (with_mocks st ms) p r
  = match complete now st p r with
    | Ok (st', res) => Ok (with_mocks st' ms, res)
    | Panic => Panic
    end.
Proof.
  unfold complete. destruct (receive r) as [rcResponse error].
  destruct (withCache p); [|done].
  destruct (Code rcResponse =? StatusOK).
  - by destruct (setResponseInCache now (pendingClient p) rcResponse (resolvedURL p)).
  - by destruct (stale (pendingClient p) && bool_decide (is_Some (cachedResponse p))).
Qed.

(** X14.  Once mock mode is disabled the fixtures are never read: a call
    returns the same response and error, sends the same request and leaves
    the same pools whatever fixtures are registered. *)
Theorem DisableMock_ignores_fixtures w st ms method callURL body headers :
  performRequest w (DisableMock (with_mocks st ms)) method callURL body headers
  = match performRequest w (DisableMock st) method callURL body headers with
    | Ok (st', res, sent) => Ok (with_mocks st' ms, res, sent)
    | Panic => Panic
    end.
Proof.
  unfold performRequest.
  change (DisableMock (with_mocks st ms)) with (with_mocks (DisableMock st) ms).
  rewrite prepare_without_mocks by done.
  destruct (prepare (range_pools w) (clock_lookup w) (DisableMock st) method callURL body headers)
    as [[st1 [res|p]]|]; [done| |done].
  cbn [mbind outcome_bind]. rewrite complete_with_mocks.
  by destruct (complete (clock_store w) st1 p (answer w)) as [[st2 res]|].
Qed.

Lemma same_config_refl rclient : same_config rclient rclient.
Proof. by unfold same_config. Qed.

Lemma same_config_with_cache rclient c c' :
  cache rclient = Some c → lru.capacity c' = lru.capacity c →
  same_config rclient (with_cache rclient c').
Proof. intros Hc Hcap. unfold same_config. cbn. rewrite Hc. cbn. by rewrite Hcap. Qed.

Lemma same_config_touched rclient callURL : same_config rclient (touched rclient callURL).
Proof.
  unfold touched. destruct (cache rclient) as [c|] eqn:Hc; [|apply same_config_refl].
  destruct (lru.Contains c callURL); [|apply same_config_refl].
  apply (same_config_with_cache _ c); [done|].
  unfold lru.Get. by destruct (lru.Peek c callURL).
Qed.

Lemma same_config_trans r1 r2 r3 : same_config r1 r2 → same_config r2 r3 → same_config r1 r3.
Proof. unfold same_config. intros (?&?&?&?) (?&?&?&?). split_and!; congruence. Qed.

Lemma setResponseInCache_same_config now rclient (response : Response) callURL rclient' :
  setResponseInCache now rclient response callURL = Ok rclient' → same_config rclient rclient'.
Proof.
  unfold setResponseInCache.
  destruct (Headers response ≫= _) as [cc|]; [|intros [= <-]; apply same_config_refl].
  destruct (getMaxAge cc) as [[v err]|]; [|done]. cbn [mbind outcome_bind].
  destruct (v >? 0); [|intros [= <-]; apply same_config_refl].
  destruct (cache rclient) as [c|] eqn:Hc; [|done].
  intros [= <-]. apply (same_config_with_cache _ c); [done|].
  unfold lru.Add. by destruct (lru.Peek c callURL).
Qed.

(** The registry after a call: the pools as resolution left them, the pool
    of the call possibly replaced by a state of the same configuration. *)
Lemma performRequest_pools w st method callURL body headers st' res sent :
  performRequest w st method callURL body headers = Ok (st', res, sent) →
  ∃ key rclient ps,
    getPool (range_pools w) (pools st) callURL = Ok (key, rclient, ps)
    ∧ mocks st' = mocks st ∧ useMock st' = useMock st
    ∧ (pools st' = ps
       ∨ has_cache rclient = true
         ∧ ∃ rclient', same_config rclient rclient' ∧ pools st' = <[key := rclient']> ps).
Proof.
  unfold performRequest, prepare.
  destruct (getPool (range_pools w) (pools st) callURL) as [[[key rclient] ps]|]; [|done].
  intros Hrun. exists key, rclient, ps. split; [done|]. revert Hrun.
  cbn [mbind outcome_bind useMock mocks with_pools pools].
  destruct (if useMock st then _ else None) as [r|].
  { intros [= <- _ _]. split_and!; [done|done|by left]. }
  destruct (String.eqb method MethodGet && has_cache rclient) eqn:Hwith.
  - apply andb_true_iff in Hwith as [_ Hcache].
    destruct (cache rclient) as [c|] eqn:Hc; [|by unfold has_cache in Hcache; rewrite Hc in Hcache].
    rewrite (getResponseFromCache_spec _ _ c) by done.
    cbn [mbind outcome_bind pools with_pools].
    pose proof (same_config_touched rclient (resolveURL rclient callURL)) as Htouched.
    destruct (match _ with Some r => negb (Staled r) | None => false end).
    { intros [= <- _ _]. split_and!; [done|done|]. right. split; [done|]. by eexists. }
    destruct (NewRequest method (resolveURL rclient callURL) body headers) as [req|].
    2:{ intros [= <- _ _]. split_and!; [done|done|]. right. split; [done|]. by eexists. }
    cbn [mbind outcome_bind]. unfold complete.
    destruct (receive (answer w)) as [rcResponse error].
    cbn [withCache pendingClient resolvedURL poolKey cachedResponse].
    destruct (Code rcResponse =? StatusOK).
    + destruct (setResponseInCache _ _ _ _) as [rclient'|] eqn:Hset; [|done].
      cbn [mbind outcome_bind pools with_pools]. intros [= <- _ _].
      split_and!; [done|done|]. right. split; [done|]. exists rclient'. split.
      * eapply same_config_trans; [exact Htouched|].
        by apply setResponseInCache_same_config in Hset.
      * cbn [pools]. apply insert_insert_eq.
    + destruct (stale _ && _); intros [= <- _ _];
        (split_and!; [done|done|]; right; split; [done|]; by eexists).
  - cbn [mbind outcome_bind].
    destruct (NewRequest method (resolveURL rclient callURL) body headers) as [req|].
    2:{ intros [= <- _ _]. split_and!; [done|done|by left]. }
    cbn [mbind outcome_bind]. unfold complete.
    destruct (receive (answer w)) as [rcResponse error]. cbn [withCache].
    intros [= <- _ _]. split_and!; [done|done|by left].
Qed.

(** X15.  A call never touches the fixtures or the mock switch, never
    removes a pool and never changes the configuration of one (client, base
    URL, stale-serving, presence and capacity of the cache); the only key it
    can add to the registry is "default", holding the default pool. *)
Theorem performRequest_keeps_registry w st method callURL body headers st' res sent :
  range_of (pools st) (range_pools w) →
  performRequest w st method callURL body headers = Ok (st', res, sent) →
  mocks st' = mocks st
  ∧ useMock st' = useMock st
  ∧ (∀ k rclient, pools st !! k = Some rclient →
                  ∃ rclient', pools st' !! k = Some rclient' ∧ same_config rclient rclient')
  ∧ (∀ k, pools st !! k = None →
          pools st' !! k = None
          ∨ k = "default" ∧ pools st' !! k = Some default_rClient).
Proof.
  intros Hr Hrun.
  destruct (performRequest_pools _ _ _ _ _ _ _ _ _ Hrun)
    as (key & rclient & ps & Hpool & Hmocks & Huse & Hpools).
  pose proof (getPool_stored _ _ _ _ _ _ Hr Hpool) as Hkey.
  assert (Hps : ps = pools st
                ∨ pools st !! "default" = None ∧ key = "default" ∧ rclient = default_rClient
                  ∧ ps = <["default" := default_rClient]> (pools st)).
  { revert Hpool. unfold getPool.
    destruct (getPool_range (range_pools w) callURL) as [[[p q]|]|]; simpl; [| |done].
    - intros [= _ _ <-]. by left.
    - destruct (pools st !! "default") as [d|] eqn:Hd.
      + intros [= _ _ <-]. by left.
      + intros [= <- <- <-]. by right. }
  split_and!; [done|done| |].
  - intros k rc Hk.
    assert (Hk' : ps !! k = Some rc).
    { destruct Hps as [->|(Hd & _ & _ & ->)]; [done|].
      rewrite lookup_insert_ne; [done|]. intros <-. congruence. }
    destruct Hpools as [->|(_ & rclient' & Hsame & ->)].
    + exists rc. split; [done|apply same_config_refl].
    + destruct (decide (key = k)) as [->|Hne].
      * rewrite lookup_insert_eq. exists rclient'. split; [done|]. congruence.
      * rewrite lookup_insert_ne by done. exists rc. split; [done|apply same_config_refl].
  - intros k Hk.
    destruct Hpools as [->|(Hcache & rclient' & Hsame & ->)].
    + destruct Hps as [->|(Hd & _ & _ & ->)]; [by left|].
      destruct (decide ("default" = k)) as [<-|Hne].
      * right. split; [done|apply lookup_insert_eq].
      * left. by rewrite lookup_insert_ne.
    + destruct Hps as [->|(Hd & -> & -> & ->)].
      * left. rewrite lookup_insert_ne; [done|]. intros <-. congruence.
      * done.
Qed.

(** *** Two calls in a row *)










End calls.

(** ** Properties of [setHeaders] *)

Section request_header_facts.

Variable canonical : string -> string.

Lemma fold_Header_Set (order : list (string * string)) (h : gmap string (list string)) K :
  fold_left (fun h' kv => Header_Set canonical h' kv.1 kv.2) order h !! K
  = match last (filter (fun kv => canonical kv.1 = K) order) with
    | Some kv => Some [kv.2]
    | None => h !! K
    end.
Proof.
  revert h. induction order as [|[k v] t IH]; intros h; simpl; [done|].
  rewrite IH, filter_cons. cbn [fst snd].
  destruct (decide (canonical k = K)) as [Hk|Hk].
  - rewrite last_cons. destruct (last (filter _ t)); [done|].
    cbn [snd]. unfold Header_Set. rewrite Hk. apply lookup_insert_eq.
  - destruct (last (filter _ t)); [done|]. unfold Header_Set. by apply lookup_insert_ne.
Qed.

(** X16.  Whatever the order in which the headers of the caller are
    visited: a header of the caller whose canonical key no other of its
    headers shares is on the request with its value, in place of any
    default; Accept: application/json and Connection: Keep-Alive are on the
    request unless the caller gives them; Content-Type: application/json is
    set on every method but GET unless the caller gives one, and on a GET
    without one the entry of the request is left as it was. *)
Theorem setHeaders_result (order : list (string * string))
    (requestHeader : gmap string (list string)) (method : string) (m : gmap string string) :
  range_of m order →
  canonical "Accept" = "Accept" →
  canonical "Connection" = "Connection" →
  canonical "Content-Type" = "Content-Type" →
  (∀ key value,
     m !! key = Some value →
     (∀ other, is_Some (m !! other) → canonical other = canonical key → other = key) →
     setHeaders canonical order requestHeader method (Some m) !! canonical key = Some [value])
  ∧ ((∀ key, is_Some (m !! key) → canonical key ≠ "Accept") →
     setHeaders canonical order requestHeader method (Some m) !! "Accept"
     = Some ["application/json"])
  ∧ ((∀ key, is_Some (m !! key) → canonical key ≠ "Connection") →
     setHeaders canonical order requestHeader method (Some m) !! "Connection"
     = Some ["Keep-Alive"])
  ∧ ((∀ key, is_Some (m !! key) → canonical key ≠ "Content-Type") →
     setHeaders canonical order requestHeader method (Some m) !! "Content-Type"
     = if String.eqb method MethodGet then requestHeader !! "Content-Type"
       else Some ["application/json"]).
Proof.
  intros Hr HA HC HT.
  assert (Hnone : ∀ K, (∀ key, is_Some (m !! key) → canonical key ≠ K) →
                       last (filter (fun kv => canonical kv.1 = K) order) = None).
  { intros K HK. apply last_None.
    destruct (filter _ order) as [|[k v] l] eqn:E; [done|].
    assert (Hin : (k, v) ∈ filter (fun kv => canonical kv.1 = K) order)
      by (rewrite E; apply list_elem_of_here).
    apply list_elem_of_filter in Hin as [Hk Hin].
    apply (range_of_lookup m order) in Hin; [|done].
    destruct (HK k); [by eexists|done]. }
  unfold setHeaders. split_and!.
  - intros key value Hkey Huniq. rewrite fold_Header_Set.
    assert (Hin : (key, value) ∈ filter (fun kv => canonical kv.1 = canonical key) order).
    { apply list_elem_of_filter. split; [done|]. by apply (range_of_lookup m order). }
    destruct (last (filter _ order)) as [[k v]|] eqn:E.
    + apply last_Some_elem_of, list_elem_of_filter in E as [Hk Hkv]. cbn [fst snd] in *.
      apply (range_of_lookup m order) in Hkv; [|done].
      rewrite (Huniq k) in Hkv; [|by eexists|done]. congruence.
    + apply last_None in E. rewrite E in Hin. by apply elem_of_nil in Hin.
  - intros HK. rewrite fold_Header_Set, (Hnone _ HK). unfold Header_Set. rewrite HA, HC, HT.
    destruct (negb (String.eqb method MethodGet)).
    + by rewrite lookup_insert_ne, lookup_insert_ne, lookup_insert_eq.
    + by rewrite lookup_insert_ne, lookup_insert_eq.
  - intros HK. rewrite fold_Header_Set, (Hnone _ HK). unfold Header_Set. rewrite HA, HC, HT.
    destruct (negb (String.eqb method MethodGet)).
    + by rewrite lookup_insert_ne, lookup_insert_eq.
    + by rewrite lookup_insert_eq.
  - intros HK. rewrite fold_Header_Set, (Hnone _ HK). unfold Header_Set. rewrite HA, HC, HT.
    destruct (String.eqb method MethodGet); cbn [negb].
    + by rewrite lookup_insert_ne, lookup_insert_ne.
    + by rewrite lookup_insert_eq.
Qed.

End request_header_facts.

(** ** Package [common]: the email pattern *)

Section email.

Import regexp.

#[local] Arguments String.append : simpl nomatch.

Lemma append_empty (s1 s2 : string) :
  (s1 ++ s2)%string = EmptyString → s1 = EmptyString ∧ s2 = EmptyString.
Proof. destruct s1; simpl; [done|discriminate]. Qed.

Lemma nullable_matches (r : Regexp) : nullable r = true ↔ matches r EmptyString.
Proof.
  split.
  - induction r as [| |member|r1 IH1 r2 IH2|r1 IH1 r2 IH2|r IH]; simpl; try done.
    + intros _. constructor.
    + intros [H1 H2]%andb_true_iff.
      apply (matches_concat r1 r2 EmptyString EmptyString); auto.
    + intros [H|H]%orb_true_iff; [apply matches_left|apply matches_right]; auto.
    + intros _. constructor.
  - intros H. remember EmptyString as s eqn:Hs.
    induction H as [|member c Hc|r1 r2 s1 s2 H1 IH1 H2 IH2|r1 r2 s H IH|r1 r2 s H IH
                    |r|r s1 s2 H1 IH1 H2 IH2]; simpl; try done.
    + apply append_empty in Hs as [-> ->]. by rewrite IH1, IH2.
    + by rewrite IH.
    + rewrite IH by done. apply orb_true_r.
Qed.

Lemma derive_matches (c : ascii) (r : Regexp) (s : string) :
  matches (derive c r) s ↔ matches r (String c s).
Proof.
  split.
  - revert s. induction r as [| |member|r1 IH1 r2 IH2|r1 IH1 r2 IH2|r IH]; intros s; simpl.
    + inversion 1.
    + inversion 1.
    + destruct (member c) eqn:Hc; inversion 1; subst. by constructor.
    + assert (Hcat : matches (Concat (derive c r1) r2) s → matches (Concat r1 r2) (String c s)).
      { inversion 1 as [| |? ? s1 s2 H1 H2| | | |]; subst.
        apply (matches_concat r1 r2 (String c s1) s2); auto. }
      destruct (nullable r1) eqn:Hn; [|done].
      inversion 1 as [| | |? ? ? Hleft|? ? ? Hright| |]; subst; [by apply Hcat|].
      apply (matches_concat r1 r2 EmptyString (String c s)); [by apply nullable_matches|auto].
    + inversion 1; subst; [apply matches_left|apply matches_right]; auto.
    + inversion 1 as [| |? ? s1 s2 H1 H2| | | |]; subst.
      apply (matches_star_more r (String c s1) s2); auto.
  - intros H. remember (String c s) as s0 eqn:Hs. revert s Hs.
    induction H as [|member c' Hc|r1 r2 s1 s2 H1 IH1 H2 IH2|r1 r2 s' H IH|r1 r2 s' H IH
                    |r|r s1 s2 H1 IH1 H2 IH2]; intros s Hs; simpl.
    + done.
    + injection Hs as -> <-. rewrite Hc. constructor.
    + destruct s1 as [|c1 s1].
      * simpl in Hs. subst s2.
        apply nullable_matches in H1. rewrite H1. apply matches_right. by apply IH2.
      * simpl in Hs. injection Hs as -> <-.
        assert (Hcat : matches (Concat (derive c r1) r2) (s1 ++ s2)%string)
          by (apply matches_concat; [by apply IH1|done]).
        destruct (nullable r1); [by apply matches_left|done].
    + apply matches_left. by apply IH.
    + apply matches_right. by apply IH.
    + done.
    + destruct s1 as [|c1 s1].
      * simpl in Hs. by apply IH2.
      * simpl in Hs. injection Hs as -> <-.
        apply matches_concat; [by apply IH1|done].
Qed.

Lemma MatchWhole_matches (r : Regexp) (s : string) : MatchWhole r s = true ↔ matches r s.
Proof.
  revert r. induction s as [|c s IH]; intros r; simpl.
  - apply nullable_matches.
  - rewrite IH. apply derive_matches.
Qed.

Lemma matches_class_iff member (s : string) :
  matches (CharClass member) s ↔ ∃ c, s = String c EmptyString ∧ member c = true.
Proof.
  split.
  - inversion 1; subst. by eexists.
  - intros (c & -> & Hc). by constructor.
Qed.

Lemma matches_star_class member (s : string) :
  matches (Star (CharClass member)) s ↔ all_bytes member s = true.
Proof.
  split.
  - intros H. remember (Star (CharClass member)) as r eqn:Hr.
    induction H as [| | | | | |r' s1 s2 H1 IH1 H2 IH2]; try done.
    injection Hr as ->. apply matches_class_iff in H1 as (c & -> & Hc).
    simpl. rewrite Hc. by apply IH2.
  - induction s as [|c s IH]; simpl; [constructor|].
    intros [Hc Hs]%andb_true_iff.
    apply (matches_star_more _ (String c EmptyString) s); [by constructor|auto].
Qed.

Lemma matches_plus_class member (s : string) :
  matches (Plus (CharClass member)) s ↔ s ≠ EmptyString ∧ all_bytes member s = true.
Proof.
  unfold Plus. split.
  - inversion 1 as [| |? ? s1 s2 H1 H2| | | |]; subst.
    apply matches_class_iff in H1 as (c & -> & Hc). apply matches_star_class in H2.
    simpl. by rewrite Hc, H2.
  - intros [Hne Hall]. destruct s as [|c s]; [done|]. simpl in Hall.
    apply andb_true_iff in Hall as [Hc Hs].
    apply (matches_concat _ _ (String c EmptyString) s); [by constructor|].
    by apply matches_star_class.
Qed.

Lemma matches_optional (r : Regexp) (s : string) :
  matches (Alternate EmptyMatch r) s ↔ s = EmptyString ∨ matches r s.
Proof.
  split.
  - inversion 1 as [| | |? ? ? H1|? ? ? H1| |]; subst; [left; by inversion H1|by right].
  - intros [->|H]; [apply matches_left; constructor|by apply matches_right].
Qed.

Lemma matches_repeat_2_4_class member (s : string) :
  matches (Repeat_2_4 (CharClass member)) s
  ↔ all_bytes member s = true ∧ (2 ≤ String.length s ≤ 4)%nat.
Proof.
  unfold Repeat_2_4. split.
  - inversion 1 as [| |? ? s1 s' H1 H'| | | |]; subst.
    inversion H' as [| |? ? s2 s'' H2 H''| | | |]; subst.
    apply matches_class_iff in H1 as (c1 & -> & Hc1).
    apply matches_class_iff in H2 as (c2 & -> & Hc2).
    apply matches_optional in H'' as [->|H3]; [simpl; rewrite Hc1, Hc2; split; [done|lia]|].
    inversion H3 as [| |? ? s3 s4 H3' H4| | | |]; subst.
    apply matches_class_iff in H3' as (c3 & -> & Hc3).
    apply matches_optional in H4 as [->|H4];
      [simpl; rewrite Hc1, Hc2, Hc3; split; [done|lia]|].
    apply matches_class_iff in H4 as (c4 & -> & Hc4).
    simpl. rewrite Hc1, Hc2, Hc3, Hc4. split; [done|lia].
  - intros [Hall Hlen].
    destruct s as [|c1 [|c2 s]]; simpl in Hlen; [lia|lia|].
    simpl in Hall. apply andb_true_iff in Hall as [Hc1 Hall].
    apply andb_true_iff in Hall as [Hc2 Hall].
    apply (matches_concat _ _ (String c1 EmptyString) (String c2 s)); [by constructor|].
    apply (matches_concat _ _ (String c2 EmptyString) s); [by constructor|].
    apply matches_optional. destruct s as [|c3 s]; [by left|right].
    apply andb_true_iff in Hall as [Hc3 Hall].
    apply (matches_concat _ _ (String c3 EmptyString) s); [by constructor|].
    apply matches_optional. destruct s as [|c4 s]; [by left|right].
    apply andb_true_iff in Hall as [Hc4 Hall].
    destruct s; [by constructor|simpl in Hlen; lia].
Qed.

Lemma IsEmailAddress_parts (str : string) :
  common.IsEmailAddress str = true
  ↔ ∃ l d t,
      str = (l ++ "@" ++ d ++ "." ++ t)%string
      ∧ l ≠ EmptyString ∧ all_bytes common.local_byte l = true
      ∧ d ≠ EmptyString ∧ all_bytes common.domain_byte d = true
      ∧ all_bytes common.lower_byte t = true ∧ (2 ≤ String.length t ≤ 4)%nat.
Proof.
  unfold common.IsEmailAddress. rewrite MatchWhole_matches. unfold common.email_pattern.
  split.
  - inversion 1 as [| |? ? l s1 Hl H1| | | |]; subst.
    inversion H1 as [| |? ? a s2 Ha H2| | | |]; subst.
    inversion H2 as [| |? ? d s3 Hd H3| | | |]; subst.
    inversion H3 as [| |? ? p t Hp Ht| | | |]; subst.
    apply matches_plus_class in Hl as [Hl1 Hl2].
    apply matches_plus_class in Hd as [Hd1 Hd2].
    apply matches_class_iff in Ha as (ca & -> & Hca). apply Ascii.eqb_eq in Hca as <-.
    apply matches_class_iff in Hp as (cp & -> & Hcp). apply Ascii.eqb_eq in Hcp as <-.
    apply matches_repeat_2_4_class in Ht as [Ht1 Ht2].
    by exists l, d, t.
  - intros (l & d & t & -> & Hl1 & Hl2 & Hd1 & Hd2 & Ht1 & Ht2).
    apply matches_concat; [by apply matches_plus_class|].
    apply (matches_concat _ _ "@" (d ++ "." ++ t)); [by constructor|].
    apply matches_concat; [by apply matches_plus_class|].
    apply (matches_concat _ _ "." t); [by constructor|].
    by apply matches_repeat_2_4_class.
Qed.

(** X17.  [IsEmailAddress] accepts exactly the strings made of a non-empty
    local part of lower-case letters, digits and . _ % + -, then "@", then a
    non-empty domain of lower-case letters, digits, "." and "-", then ".",
    then two to four lower-case letters. *)
Theorem IsEmailAddress_spec (str : string) :
  common.IsEmailAddress str = true
  ↔ ∃ l d t,
      str = (l ++ "@" ++ d ++ "." ++ t)%string
      ∧ l ≠ EmptyString ∧ all_bytes common.local_byte l = true
      ∧ d ≠ EmptyString ∧ all_bytes common.domain_byte d = true
      ∧ all_bytes common.lower_byte t = true ∧ (2 ≤ String.length t ≤ 4)%nat.
Proof. apply IsEmailAddress_parts. Qed.

Lemma all_bytes_app member (s1 s2 : string) :
  all_bytes member (s1 ++ s2)%string = all_bytes member s1 && all_bytes member s2.
Proof. induction s1 as [|c s1 IH]; simpl; [done|]. by rewrite IH, andb_assoc. Qed.

Lemma all_bytes_weaken (p q : ascii -> bool) (s : string) :
  (∀ c, p c = true → q c = true) → all_bytes p s = true → all_bytes q s = true.
Proof.
  intros Hpq. induction s as [|c s IH]; simpl; [done|].
  intros [Hc Hs]%andb_true_iff. by rewrite (Hpq c Hc), IH.
Qed.

Lemma length_app_string (s1 s2 : string) :
  String.length (s1 ++ s2)%string = (String.length s1 + String.length s2)%nat.
Proof. induction s1 as [|c s1 IH]; simpl; [done|]. by rewrite IH. Qed.

Example IsEmailAddress_examples :
  common.IsEmailAddress "robert@astropay.com" = true
  ∧ common.IsEmailAddress "Robert@astropay.com" = false
  ∧ common.IsEmailAddress "robert@astropay.museum" = false
  ∧ common.IsEmailAddress "robert@astropay" = false
  ∧ common.IsEmailAddress "a@b@c.com" = false.
Proof. by vm_compute. Qed.

(** X18.  [IsEmailAddress] rejects every string that holds a byte other
    than a lower-case letter, a digit or one of . _ % + - @ (an upper-case
    letter, a space), and every string of fewer than six bytes. *)
Theorem IsEmailAddress_accepts_only (str : string) :
  common.IsEmailAddress str = true →
  all_bytes (fun c => common.local_byte c || Ascii.eqb c "@") str = true
  ∧ (6 ≤ String.length str)%nat.
Proof.
  intros (l & d & t & -> & Hl1 & Hl2 & Hd1 & Hd2 & Ht1 & Ht2)%IsEmailAddress_parts.
  assert (Hl : ∀ c, common.local_byte c = true →
                    common.local_byte c || Ascii.eqb c "@" = true)
    by (intros c ->; done).
  assert (Hd : ∀ c, common.domain_byte c = true →
                    common.local_byte c || Ascii.eqb c "@" = true).
  { intros c. unfold common.domain_byte, common.local_byte.
    destruct (common.between "a" "z" c), (common.between "0" "9" c),
      (Ascii.eqb c "."), (Ascii.eqb c "-"); simpl; try done.
    all: by rewrite ?orb_true_r. }
  assert (Ht : ∀ c, common.lower_byte c = true →
                    common.local_byte c || Ascii.eqb c "@" = true).
  { intros c. unfold common.lower_byte, common.local_byte. by intros ->. }
  split.
  - rewrite !all_bytes_app.
    rewrite (all_bytes_weaken _ _ l Hl Hl2), (all_bytes_weaken _ _ d Hd Hd2),
      (all_bytes_weaken _ _ t Ht Ht1).
    done.
  - rewrite !length_app_string. simpl.
    destruct l; [done|]. destruct d; [done|]. simpl. lia.
Qed.

End email.

(** ** Witnesses and counterexamples *)

Lemma getPool_resolves_witness :
  ∃ key pool ps',
    getPool (map_to_list (pools two_pools)) (pools two_pools) "/users/42" = Ok (key, pool, ps')
    ∧ ps' !! key = Some pool
    ∧ ((pools two_pools !! key = Some pool ∧ MatchString key "/users/42" = Some true
        ∧ ps' = pools two_pools)
       ∨ ((∀ pattern pool', pools two_pools !! pattern = Some pool' →
                            MatchString pattern "/users/42" = Some false)
          ∧ key = "default"
          ∧ ((pools two_pools !! "default" = Some pool ∧ ps' = pools two_pools)
             ∨ (pools two_pools !! "default" = None ∧ pool = default_rClient
                ∧ ps' = <["default" := default_rClient]> (pools two_pools)))
          ∧ ∀ order' callURL',
              range_of ps' order' →
              (∀ pattern pool', ps' !! pattern = Some pool' →
                                MatchString pattern callURL' = Some false) →
              getPool order' ps' callURL' = Ok ("default", pool, ps'))).
Proof.
  apply (getPool_resolves (pools two_pools) (map_to_list (pools two_pools)) "/users/42").
  - unfold range_of. reflexivity.
  - intros pattern pool _. simpl. by eexists.
Defined.

(** C1 fails as stated.  With "/users/" registered before "/cards/" and a
    URL that both match, the rule of the specification selects "/users/",
    yet on one visit of the map [getPool] returns the pool of "/cards/"; and
    registering in the opposite order builds the very same registry. *)
Lemma getPool_not_in_registration_order :
  first_registered_match two_registrations users_cards_URL = Some "/users/"
  ∧ (∃ order pool,
       range_of (pools two_pools) order
       ∧ getPool order (pools two_pools) users_cards_URL
         = Ok ("/cards/", pool, pools two_pools)
       ∧ baseURL pool = "http://cards.astropay.com")
  ∧ register_all (reverse two_registrations) no_registry = two_pools.
Proof.
  split_and!.
  - reflexivity.
  - exists (("/cards/", pool_at two_pools "/cards/")
             :: map_to_list (delete "/cards/" (pools two_pools))),
           (pool_at two_pools "/cards/").
    split_and!.
    + apply range_of_first. vm_compute. reflexivity.
    + vm_compute. reflexivity.
    + vm_compute. reflexivity.
  - vm_compute. reflexivity.
Qed.


(** C3 fails on the code.  [getMaxAge] indexes the second piece of the first
    Cache-Control value whenever some value mentions max-age: with the
    directive in the second value, or with no "=" after it, the index is out
    of range, and a GET answered with status 200 and such a header panics
    during cache admission. *)
Theorem cache_admission_panics :
  getMaxAge ["no-cache"; "max-age=10"] = Panic
  ∧ getMaxAge ["max-age"] = Panic
  ∧ range_of (pools (caching_registry false))
             (range_pools (later_world (caching_registry false) 0
                (Answered 200 (example_headers ["no-cache"; "max-age=10"])
                   (ReadAll "{id:123}"))))
  ∧ Get (later_world (caching_registry false) 0
           (Answered 200 (example_headers ["no-cache"; "max-age=10"]) (ReadAll "{id:123}")))
        (caching_registry false) cacheURL []
    = Panic.
Proof.
  split_and!; [reflexivity|reflexivity|unfold range_of; reflexivity|].
  vm_compute. reflexivity.
Qed.

Lemma cache_admission_witness :
  (∃ st' req,
     Get storing_world (caching_registry false) cacheURL []
     = Ok (st',
           (Some {| Body := "{id:123}"; Code := 200;
                    Headers := Some (example_headers ["max-age=60"]);
                    CachedContent := false; Staled := false |}, None),
           Some req)
     ∧ cache_entry (pool_at st' localhost) MethodGet cacheURL
       = Some {| Content := "{id:123}";
                 elementHeaders := Some (example_headers ["max-age=60"]);
                 Expires := 7 + 60 * Second |})
  ∧ (∃ st' res req rclient',
       Get zero_max_age_world (caching_registry false) cacheURL [] = Ok (st', res, Some req)
       ∧ pools st' !! localhost = Some rclient'
       ∧ same_entries (pool_at (caching_registry false) localhost) rclient').
Proof.
  split.
  - destruct (cache_admission storing_world (caching_registry false) MethodGet cacheURL ""
                (getHeadersMap []) localhost (pool_at (caching_registry false) localhost)
                (pools (caching_registry false))) as [Hstore _].
    + unfold range_of. reflexivity.
    + vm_compute. reflexivity.
    + right. vm_compute. reflexivity.
    + vm_compute. reflexivity.
    + reflexivity.
    + destruct (Hstore (cache_at (caching_registry false) localhost)
                  (example_headers ["max-age=60"]) "{id:123}" "max-age=60" [] "max-age" "60" []
                  60 false) as (st' & req & Hrun & Hkey & Hpeek);
        [reflexivity|vm_compute; reflexivity|reflexivity|vm_compute; reflexivity
        |reflexivity|reflexivity|reflexivity|unfold MaxSeconds; lia|].
      exists st', req. split; [exact Hrun|].
      unfold pool_at. rewrite Hkey. simpl. exact Hpeek.
  - destruct (cache_admission zero_max_age_world (caching_registry false) MethodGet cacheURL ""
                (getHeadersMap []) localhost (pool_at (caching_registry false) localhost)
                (pools (caching_registry false))) as [_ Hdeclined].
    + unfold range_of. reflexivity.
    + vm_compute. reflexivity.
    + right. vm_compute. reflexivity.
    + vm_compute. reflexivity.
    + reflexivity.
    + apply Hdeclined.
      apply (declined_value _ _ _ "max-age=0" [] "max-age" "0" [] 0 false);
        [vm_compute; reflexivity|reflexivity|reflexivity|reflexivity|lia].
Defined.

(** C2 fails as stated.  A GET through a pool with a cache is answered with
    status 200 and the header Cache-Control: max-age=60, public: the text
    after the first "=" is not a number, and nothing is stored.  Another is
    answered with status 200 and Cache-Control: max-age=60 but its body
    cannot be read: the response is built without headers, and nothing is
    stored. *)
Lemma max_age_with_more_directives_not_stored :
  (range_of (pools (caching_registry false)) (range_pools more_directives_world)
   ∧ ∃ st' r req,
       Get more_directives_world (caching_registry false) cacheURL []
       = Ok (st', (Some r, None), Some req)
       ∧ Code r = 200
       ∧ (Headers r ≫= fun h => h !! "Cache-Control") = Some ["max-age=60, public"]
       ∧ cache_entry (pool_at st' localhost) MethodGet cacheURL = None)
  ∧ (range_of (pools (caching_registry false)) (range_pools unreadable_world)
     ∧ ∃ st' r err req,
         Get unreadable_world (caching_registry false) cacheURL []
         = Ok (st', (Some r, Some err), Some req)
         ∧ Code r = 200
         ∧ cache_entry (pool_at st' localhost) MethodGet cacheURL = None).
Proof.
  split; (split; [unfold range_of; reflexivity|]).
  - eexists _, _, _. split_and!; vm_compute; reflexivity.
  - eexists _, _, _, _. split_and!; vm_compute; reflexivity.
Qed.

Lemma stale_entry_served_on_failure_witness :
  ∃ st' req,
    performRequest failing_world (cached_registry true) MethodGet cacheURL ""
      (getHeadersMap [])
    = Ok (st',
          (Some {| Body := Content (entry_at (cached_registry true) localhost cacheURL);
                   Code := 200;
                   Headers := elementHeaders (entry_at (cached_registry true) localhost cacheURL);
                   CachedContent := true; Staled := true |}, None),
          Some req).
Proof.
  apply (stale_entry_served_on_failure failing_world (cached_registry true) cacheURL ""
           (getHeadersMap []) localhost (pool_at (cached_registry true) localhost)
           (pools (cached_registry true)) (cache_at (cached_registry true) localhost)
           (entry_at (cached_registry true) localhost cacheURL)).
  - vm_compute. reflexivity.
  - vm_compute. reflexivity.
  - vm_compute. reflexivity.
  - right. vm_compute. reflexivity.
  - vm_compute. reflexivity.
  - vm_compute. discriminate.
  - reflexivity.
  - vm_compute. discriminate.
Defined.

Lemma transport_error_result_witness :
  ∃ st' req,
    performRequest (timeout_world (caching_registry false)) (caching_registry false) MethodPost
      "http://localhost:8080/testing" "{id:123}" (getHeadersMap [])
    = Ok (st',
          match stale_candidate (clock_lookup (timeout_world (caching_registry false)))
                  (pool_at (caching_registry false) localhost) MethodPost
                  (resolveURL (pool_at (caching_registry false) localhost)
                     "http://localhost:8080/testing") with
          | Some e =>
              (Some {| Body := Content e; Code := 200; Headers := elementHeaders e;
                       CachedContent := true; Staled := true |}, None)
          | None =>
              (Some {| Body := ""; Code := 0; Headers := None;
                       CachedContent := false; Staled := false |},
               Some (TransportError "timeout"))
          end,
          Some req).
Proof.
  apply (transport_error_result (timeout_world (caching_registry false)) (caching_registry false) MethodPost
           "http://localhost:8080/testing" "{id:123}" (getHeadersMap []) localhost
           (pool_at (caching_registry false) localhost) (pools (caching_registry false))
           "timeout").
  - vm_compute. reflexivity.
  - right. vm_compute. reflexivity.
  - vm_compute. reflexivity.
  - reflexivity.
  - reflexivity.
Defined.

(** C5 fails as stated.  A GET through a pool that serves stale entries
    finds an expired entry, the network attempt times out, and the call
    returns the stale entry (status 200, the cached body) and no error. *)
Lemma transport_error_hidden_by_stale_entry :
  range_of (pools (cached_registry true)) (range_pools (timeout_world (cached_registry true)))
  ∧ answer (timeout_world (cached_registry true)) = Failed "timeout"
  ∧ ∃ st' req,
      Get (timeout_world (cached_registry true)) (cached_registry true) cacheURL []
      = Ok (st',
            (Some {| Body := "{id:123}"; Code := 200;
                     Headers := Some (example_headers ["max-age=1"]);
                     CachedContent := true; Staled := true |}, None),
            Some req).
Proof.
  split_and!; [unfold range_of; reflexivity|reflexivity|].
  eexists _, _. vm_compute. reflexivity.
Qed.

Lemma redirect_result_witness :
  ∃ st' req,
    performRequest (redirect_world (caching_registry false)) (caching_registry false) MethodGet
      "http://localhost:8080/testing" "" (getHeadersMap [])
    = Ok (st',
          (Some match stale_candidate (clock_lookup (redirect_world (caching_registry false)))
                        (pool_at (caching_registry false) localhost) MethodGet
                        (resolveURL (pool_at (caching_registry false) localhost)
                           "http://localhost:8080/testing") with
                | Some e =>
                    {| Body := Content e; Code := 200; Headers := elementHeaders e;
                       CachedContent := true; Staled := true |}
                | None =>
                    {| Body := ""; Code := StatusCode_of Found;
                       Headers := Some (<["Location" := ["http://localhost:8080/moved"]]> ∅);
                       CachedContent := false; Staled := false |}
                end, None),
          Some req).
Proof.
  apply (redirect_result (redirect_world (caching_registry false)) (caching_registry false) MethodGet
           "http://localhost:8080/testing" "" (getHeadersMap []) localhost
           (pool_at (caching_registry false) localhost) (pools (caching_registry false))
           Found (<["Location" := ["http://localhost:8080/moved"]]> ∅)).
  - vm_compute. reflexivity.
  - right. vm_compute. reflexivity.
  - vm_compute. reflexivity.
  - reflexivity.
  - reflexivity.
Defined.

(** C6 fails as stated.  A GET through a pool that serves stale entries
    finds an expired entry and its redirect (302) is intercepted: the call
    returns the stale entry, status 200 and the cached body, not the status
    and headers of the redirect response with an empty body. *)
Lemma redirect_hidden_by_stale_entry :
  range_of (pools (cached_registry true)) (range_pools (redirect_world (cached_registry true)))
  ∧ (∃ header, answer (redirect_world (cached_registry true)) = Redirected Found header)
  ∧ ∃ st' req,
      Get (redirect_world (cached_registry true)) (cached_registry true) cacheURL []
      = Ok (st',
            (Some {| Body := "{id:123}"; Code := 200;
                     Headers := Some (example_headers ["max-age=1"]);
                     CachedContent := true; Staled := true |}, None),
            Some req).
Proof.
  split_and!; [unfold range_of; reflexivity|by eexists|].
  eexists _, _. vm_compute. reflexivity.
Qed.

Lemma fresh_entry_served_witness :
  ∃ st',
    performRequest early_world (cached_registry true) MethodGet cacheURL ""
      (getHeadersMap [])
    = Ok (st',
          (Some {| Body := Content (entry_at (cached_registry true) localhost cacheURL);
                   Code := 200;
                   Headers := elementHeaders (entry_at (cached_registry true) localhost cacheURL);
                   CachedContent := true; Staled := false |}, None),
          None).
Proof.
  refine (proj1 (fresh_entry_served early_world (cached_registry true) cacheURL ""
                   (getHeadersMap []) localhost (pool_at (cached_registry true) localhost)
                   (pools (cached_registry true)) (cache_at (cached_registry true) localhost)
                   (entry_at (cached_registry true) localhost cacheURL) _ _ _ _) _).
  - vm_compute. reflexivity.
  - vm_compute. reflexivity.
  - right. vm_compute. reflexivity.
  - vm_compute. reflexivity.
  - vm_compute. reflexivity.
Defined.


Lemma expired_entry_lookup_witness :
  getResponseFromCache (clock_lookup failing_world) stale_serving_pool
    (resolveURL stale_serving_pool cacheURL)
  = Ok (if stale stale_serving_pool
        then Some {| Body := Content (entry_at (cached_registry true) localhost cacheURL);
                     Code := 200;
                     Headers :=
                       elementHeaders (entry_at (cached_registry true) localhost cacheURL);
                     CachedContent := true; Staled := true |}
        else None,
        touched stale_serving_pool (resolveURL stale_serving_pool cacheURL))
  ∧ ∃ st1 p,
      prepare (range_pools failing_world) (clock_lookup failing_world) (cached_registry true)
        MethodGet cacheURL "" (getHeadersMap [])
      = Ok (st1, inr p)
      ∧ cachedResponse p
        = (if stale stale_serving_pool
           then Some {| Body := Content (entry_at (cached_registry true) localhost cacheURL);
                        Code := 200;
                        Headers :=
                          elementHeaders (entry_at (cached_registry true) localhost cacheURL);
                        CachedContent := true; Staled := true |}
           else None)
      ∧ requestURL (outgoing p) = resolveURL stale_serving_pool cacheURL.
Proof.
  apply (expired_entry_lookup failing_world (cached_registry true) cacheURL ""
           (getHeadersMap []) localhost stale_serving_pool
           (pools (cached_registry true)) (cache_at (cached_registry true) localhost)
           (entry_at (cached_registry true) localhost cacheURL)).
  - vm_compute. reflexivity.
  - vm_compute. reflexivity.
  - right. vm_compute. reflexivity.
  - vm_compute. reflexivity.
  - vm_compute. discriminate.
  - reflexivity.
Defined.

(** C9 fails as stated.  In a pool that does not serve stale entries the
    lookup of an expired entry returns nothing. *)
Lemma expired_entry_dropped_without_stale_serving :
  stale plain_pool = false
  ∧ (∃ e, cache_entry plain_pool MethodGet cacheURL = Some e ∧ Expires e ≤ 2000000000)
  ∧ ∃ rclient', getResponseFromCache 2000000000 plain_pool cacheURL = Ok (None, rclient').
Proof.
  split_and!.
  - vm_compute. reflexivity.
  - eexists. split; [vm_compute; reflexivity|]. vm_compute. discriminate.
  - eexists. vm_compute. reflexivity.
Qed.

(** ** Witnesses of the further properties *)

Lemma AddMocks_registers_every_entry_witness :
  searchMockCall (mocks (AddMocks (map_to_list pepe_mocks) no_registry)) MethodGet
    "http://pepa.com" (getHeadersMap []) ""
  = pepe_mocks !! "http://pepa.com".
Proof.
  refine (AddMocks_registers_every_entry pepe_mocks (map_to_list pepe_mocks) no_registry
            _ _ "http://pepa.com").
  - unfold range_of. reflexivity.
  - intros callURL. reflexivity.
Defined.

Lemma AddMock_then_lookup_witness :
  searchMockCall (mocks (AddMock "http://pepe.com" "GET" "" pepe [] no_registry))
    "GET" "http://pepe.com" (getHeadersMap []) "" = Some pepe
  ∧ ∀ method' callURL' h' body',
      ¬ (callURL' = "http://pepe.com" ∧ method' = "GET" ∧ h' = getHeadersMap [] ∧ body' = "") →
      searchMockCall (mocks (AddMock "http://pepe.com" "GET" "" pepe [] no_registry))
        method' callURL' h' body'
      = searchMockCall (mocks no_registry) method' callURL' h' body'.
Proof.
  apply (AddMock_then_lookup no_registry "http://pepe.com" "GET" "" pepe []).
  reflexivity.
Defined.

Lemma getPool_unique_match_witness :
  getPool (map_to_list (pools two_pools)) (pools two_pools) "http://users.astropay.com/users/1"
  = Ok ("/users/", pool_at two_pools "/users/", pools two_pools).
Proof.
  apply (getPool_unique_match (pools two_pools) (map_to_list (pools two_pools))
           "http://users.astropay.com/users/1" "/users/" (pool_at two_pools "/users/")).
  - unfold range_of. reflexivity.
  - vm_compute. reflexivity.
  - vm_compute. reflexivity.
  - intros other rclient Hother.
    apply (map_Forall_lookup_1
             (fun o (_ : rClient) =>
                o ≠ "/users/"
                → MatchString o "http://users.astropay.com/users/1" = Some false)
             (pools two_pools) other rclient); [|exact Hother].
    apply (bool_decide_unpack _). vm_compute. exact I.
Defined.

Lemma uncached_call_passes_through_witness :
  performRequest (timeout_world (caching_registry false)) (caching_registry false) MethodPost
    "http://localhost:8080/testing" "{id:123}" (getHeadersMap [])
  = Ok (with_pools (caching_registry false) (pools (caching_registry false)),
        (Some (receive (answer (timeout_world (caching_registry false)))).1,
         (receive (answer (timeout_world (caching_registry false)))).2),
        Some {| requestMethod := MethodPost;
                requestURL := resolveURL (pool_at (caching_registry false) localhost)
                                "http://localhost:8080/testing";
                requestBody := if String.eqb MethodPost MethodPost || String.eqb MethodPost MethodPut
                               then Some "{id:123}" else None;
                requestHeaders := getHeadersMap [] |}).
Proof.
  apply (uncached_call_passes_through (timeout_world (caching_registry false))
           (caching_registry false) MethodPost "http://localhost:8080/testing" "{id:123}"
           (getHeadersMap []) localhost (pool_at (caching_registry false) localhost)
           (pools (caching_registry false))).
  - vm_compute. reflexivity.
  - right. vm_compute. reflexivity.
  - left. discriminate.
  - reflexivity.
Defined.

Lemma rejected_request_returns_nil_witness :
  ∃ st', @performRequest picky_go (timeout_world (caching_registry false))
           (caching_registry false) MethodGet "http://local host:8080/cache" ""
           (getHeadersMap [])
         = Ok (st', (None, Some NewRequestError), None).
Proof.
  apply (@rejected_request_returns_nil picky_go (timeout_world (caching_registry false))
           (caching_registry false) MethodGet "http://local host:8080/cache" ""
           (getHeadersMap []) "default" default_rClient
           (<["default" := default_rClient]> (pools (caching_registry false)))).
  - vm_compute. reflexivity.
  - right. vm_compute. reflexivity.
  - vm_compute. reflexivity.
  - vm_compute. reflexivity.
Defined.

Lemma unreadable_body_result_witness :
  ∃ st' req,
    performRequest unreadable_world (caching_registry false) MethodGet cacheURL ""
      (getHeadersMap [])
    = Ok (st',
          match (if 200 =? StatusOK then None
                 else stale_candidate (clock_lookup unreadable_world)
                        (pool_at (caching_registry false) localhost) MethodGet
                        (resolveURL (pool_at (caching_registry false) localhost) cacheURL)) with
          | Some e =>
              (Some {| Body := Content e; Code := 200; Headers := elementHeaders e;
                       CachedContent := true; Staled := true |}, None)
          | None =>
              (Some {| Body := ""; Code := 200; Headers := None;
                       CachedContent := false; Staled := false |},
               Some (ReadError "unexpected EOF"))
          end,
          Some req)
    ∧ ∃ rclient', pools st' !! localhost = Some rclient'
                  ∧ same_entries (pool_at (caching_registry false) localhost) rclient'.
Proof.
  apply (unreadable_body_result unreadable_world (caching_registry false) MethodGet cacheURL ""
           (getHeadersMap []) localhost (pool_at (caching_registry false) localhost)
           (pools (caching_registry false)) 200 (example_headers ["max-age=60"])
           "unexpected EOF").
  - unfold range_of. reflexivity.
  - vm_compute. reflexivity.
  - right. vm_compute. reflexivity.
  - vm_compute. reflexivity.
  - reflexivity.
  - reflexivity.
Defined.

Lemma failure_returned_without_stale_candidate_witness :
  ∃ st' req,
    performRequest (timeout_world (cached_registry false)) (cached_registry false) MethodGet
      cacheURL "" (getHeadersMap [])
    = Ok (st',
          (Some (receive (answer (timeout_world (cached_registry false)))).1,
           (receive (answer (timeout_world (cached_registry false)))).2),
          Some req).
Proof.
  apply (failure_returned_without_stale_candidate (timeout_world (cached_registry false))
           (cached_registry false) MethodGet cacheURL "" (getHeadersMap []) localhost
           plain_pool (pools (cached_registry false))).
  - vm_compute. reflexivity.
  - right. vm_compute. reflexivity.
  - vm_compute. reflexivity.
  - left. vm_compute. reflexivity.
  - reflexivity.
  - vm_compute. discriminate.
Defined.



Lemma IsEmailAddress_accepts_only_witness :
  all_bytes (fun c => common.local_byte c || Ascii.eqb c "@") "robert@astropay.com" = true
  ∧ (6 ≤ String.length "robert@astropay.com")%nat.
Proof.
  apply (IsEmailAddress_accepts_only "robert@astropay.com").
  vm_compute. reflexivity.
Defined.

Lemma getMaxAge_panics_iff_witness :
  ∃ before number more,
    strings.Split "public, max-age=60" "=" = before :: number :: more
    ∧ getMaxAge ["public, max-age=60"; "no-transform"] = Ok (strconv.Atoi number).
Proof.
  apply (proj2 (proj2 (getMaxAge_panics_iff ["public, max-age=60"; "no-transform"]))
           "public, max-age=60" ["no-transform"]).
  - reflexivity.
  - apply Exists_cons_hd. reflexivity.
  - reflexivity.
Defined.

Lemma performRequest_keeps_registry_witness :
  mocks (cached_registry false) = mocks (caching_registry false)
  ∧ useMock (cached_registry false) = useMock (caching_registry false)
  ∧ (∀ k rclient, pools (caching_registry false) !! k = Some rclient →
                  ∃ rclient', pools (cached_registry false) !! k = Some rclient'
                              ∧ same_config rclient rclient')
  ∧ (∀ k, pools (caching_registry false) !! k = None →
          pools (cached_registry false) !! k = None
          ∨ k = "default" ∧ pools (cached_registry false) !! k = Some default_rClient).
Proof.
  apply (performRequest_keeps_registry (first_world false) (caching_registry false) MethodGet
           cacheURL "" (getHeadersMap []) (cached_registry false)
           (returned_by first_run) (sent_by first_run)).
  - unfold range_of. reflexivity.
  - vm_compute. reflexivity.
Defined.

Lemma setHeaders_result_witness :
  setHeaders (fun key => key) (map_to_list test_headers) ∅ MethodPost (Some test_headers)
    !! "Accept" = Some ["text/plain"]
  ∧ setHeaders (fun key => key) (map_to_list test_headers) ∅ MethodPost (Some test_headers)
      !! "Connection" = Some ["Keep-Alive"]
  ∧ setHeaders (fun key => key) (map_to_list test_headers) ∅ MethodPost (Some test_headers)
      !! "Content-Type" = Some ["application/json"].
Proof.
  destruct (setHeaders_result (fun key => key) (map_to_list test_headers) ∅ MethodPost
              test_headers) as (Hcaller & _ & Hconnection & Hcontent).
  - unfold range_of. reflexivity.
  - reflexivity.
  - reflexivity.
  - reflexivity.
  - split_and!.
    + apply (Hcaller "Accept" "text/plain"); [vm_compute; reflexivity|].
      intros other _ Hother. exact Hother.
    + apply Hconnection. intros key [value Hvalue] ->. vm_compute in Hvalue. discriminate.
    + apply Hcontent. intros key [value Hvalue] ->. vm_compute in Hvalue. discriminate.
Defined.
